(** * Stata error-code extraction: parser and validator

    A shallow embedding of [external/scripts/parse_error_codes.py] and
    [external/scripts/validate_extraction.py], with the properties of the
    extraction pipeline proved over it.

    Text is a list of 8-bit characters, each read as the code point of the
    same number (U+0000 .. U+00FF); the character classes below are Python's
    [str] classes on that range.

    A function of the parser gives what the Python function returns; the
    [ValueError] of [int] and of [str] on more than [int_max_str_digits]
    digits is told apart by [int_raises], [str_raises] and [raises], and the
    two [main] functions turn an exception that escapes into the exit
    status 1.  The artifacts the validator reads are typed: the codes are
    integers and the descriptions strings. *)

From Stdlib Require Import ZArith Ascii String List Lia Bool DecimalPos.
From stdpp Require Import base gmap strings list sorting.

Open Scope Z_scope.

(** ** Python strings *)

Abbreviation text := (list ascii).

Notation "'str' s" := (list_ascii_of_string s%string)
  (at level 10, s at level 9, only parsing).

Module PyStr.

Definition cp (c : ascii) : N := N_of_ascii c.

Definition in_range (lo hi : N) (c : ascii) : bool :=
  ((lo <=? cp c) && (cp c <=? hi))%N.

Definition is_char (x c : ascii) : bool := Ascii.eqb x c.
#[global] Arguments is_char _ _ : simpl never.

Definition neg (p : ascii → bool) (c : ascii) : bool := negb (p c).

(** [str.isspace], which is also [\s] of [re] on [str] patterns. *)
Definition is_space (c : ascii) : bool :=
  in_range 9 13 c || in_range 28 32 c || (cp c =? 133)%N || (cp c =? 160)%N.

(** [\d]: the decimal digits. *)
Definition is_digit (c : ascii) : bool := in_range 48 57 c.

(** [[A-Z]] and [[a-zA-Z]]. *)
Definition is_upper (c : ascii) : bool := in_range 65 90 c.
Definition is_alpha (c : ascii) : bool := in_range 65 90 c || in_range 97 122 c.

(** [\w]: the alphanumeric characters and the underscore. *)
Definition is_word (c : ascii) : bool :=
  is_digit c || is_alpha c || (cp c =? 95)%N
  || (cp c =? 170)%N || (cp c =? 178)%N || (cp c =? 179)%N || (cp c =? 181)%N
  || (cp c =? 185)%N || (cp c =? 186)%N || in_range 188 190 c
  || in_range 192 214 c || in_range 216 246 c || in_range 248 255 c.

Definition newline : ascii := "010"%char.

(** [sys.get_int_max_str_digits()]: the most digits that [int] reads and
    [str] prints. *)
Definition int_max_str_digits : Z := 4300.

(** [int(s)] on a string of decimal digits: the integer it returns. *)
Definition int (s : text) : Z :=
  fold_left (fun acc c => 10 * acc + (Z.of_N (cp c) - 48)) s 0.

(** [int(s)] raises [ValueError] instead when [s] has more than
    [int_max_str_digits] digits, leading zeros included. *)
Definition int_raises (s : text) : bool :=
  int_max_str_digits <? Z.of_nat (length s).

Fixpoint lstrip_by (p : ascii → bool) (s : text) : text :=
  match s with
  | c :: s' => if p c then lstrip_by p s' else s
  | [] => []
  end.

Definition rstrip_by (p : ascii → bool) (s : text) : text :=
  rev (lstrip_by p (rev s)).

(** [s.strip()] *)
Definition strip (s : text) : text := rstrip_by is_space (lstrip_by is_space s).

(** [s.rstrip(chars)] *)
Definition rstrip_chars (chars : text) (s : text) : text :=
  rstrip_by (fun c => existsb (is_char c) chars) s.

(** [s.split()]: the maximal runs of non-whitespace characters. *)
Fixpoint split_ws_from (cur : text) (s : text) : list text :=
  match s with
  | [] => match cur with [] => [] | _ => [rev cur] end
  | c :: s' =>
      if is_space c
      then match cur with
           | [] => split_ws_from [] s'
           | _ => rev cur :: split_ws_from [] s'
           end
      else split_ws_from (c :: cur) s'
  end.

Definition split_ws (s : text) : list text := split_ws_from [] s.

(** [sep.join(l)] *)
Fixpoint join (sep : text) (l : list text) : text :=
  match l with
  | [] => []
  | [w] => w
  | w :: ws => w ++ sep ++ join sep ws
  end.

(** [c in s] for a one-character [c]. *)
Definition contains (c : ascii) (s : text) : bool := existsb (is_char c) s.

(** [s.split(c, 1)]: one element when [c] does not occur, else the text
    before the first [c] and the text after it. *)
Fixpoint split1 (c : ascii) (s : text) : list text :=
  match s with
  | [] => [[]]
  | x :: s' =>
      if is_char c x then [[]; s']
      else match split1 c s' with
           | p :: ps => (x :: p) :: ps
           | [] => [[x]]
           end
  end.

(** [s[a:b]] for [0 <= a] and [0 <= b]. *)
Definition slice (a b : nat) (s : text) : text := take (b - a) (drop a s).

(** [l[i]] where the source has checked the length. *)
Definition item (l : list text) (i : nat) : text := default [] (l !! i).



(** [str(n)] raises [ValueError] instead when [n] has more than
    [int_max_str_digits] digits; so do the f-strings, [json.dump] and
    [csv.writer] when they print [n]. *)
Definition str_raises (n : Z) : bool :=
  10 ^ int_max_str_digits <=? Z.abs n.




(** [s.replace(c, by)] for a one-character [c]. *)
Definition replace_char (c : ascii) (by_ : text) (s : text) : text :=
  flat_map (fun x => if is_char c x then by_ else [x]) s.

Definition dquote : ascii := "034"%char.
Definition backslash : ascii := "092"%char.

End PyStr.

(** ** Regular expressions: the backtracking matcher of [re]

    The patterns of the two scripts repeat single character classes only
    ([\s*], [\d+], [.+?], ...), so [Rep] takes a class.  [Opt] is the greedy
    [?].  [Bol] and [Eol] are [^] and [$] under [re.MULTILINE]; [Bos] is [^]
    without it. *)

Module Re.
Import PyStr.

Inductive regex : Type :=
| Eps
| Chr (p : ascii → bool)
| Bos
| Bol
| Eol
| Seq (r1 r2 : regex)
| Alt (r1 r2 : regex)
| Rep (greedy : bool) (lo : nat) (p : ascii → bool)
| Opt (r : regex)
| Grp (i : nat) (r : regex).

Abbreviation groups := (gmap nat text).

Section Matcher.
Context {A : Type}.

(** [lo] or more characters of class [p], as many as possible first. *)
Fixpoint rep_greedy (p : ascii → bool) (lo : nat) (prev : option ascii)
    (s : text) (k : option ascii → text → option A) : option A :=
  let stop := match lo with O => k prev s | S _ => None end in
  match s with
  | c :: s' =>
      if p c then
        match rep_greedy p (pred lo) (Some c) s' k with
        | Some a => Some a
        | None => stop
        end
      else stop
  | [] => stop
  end.

(** [lo] or more characters of class [p], as few as possible first. *)
Fixpoint rep_lazy (p : ascii → bool) (lo : nat) (prev : option ascii)
    (s : text) (k : option ascii → text → option A) : option A :=
  let more :=
    match s with
    | c :: s' => if p c then rep_lazy p (pred lo) (Some c) s' k else None
    | [] => None
    end in
  match lo with
  | O => match k prev s with Some a => Some a | None => more end
  | S _ => more
  end.

(** [mt r prev s g k]: match [r] at a position whose preceding
    character is [prev] ([None] at the start of the text) and whose
    remaining text is [s]; [k] is the rest of the pattern.  [None] is
    failure, and makes the caller try its next choice. *)
Fixpoint mt (r : regex) (prev : option ascii) (s : text) (g : groups)
    (k : option ascii → text → groups → option A) : option A :=
  match r with
  | Eps => k prev s g
  | Chr p =>
      match s with
      | c :: s' => if p c then k (Some c) s' g else None
      | [] => None
      end
  | Bos => match prev with None => k prev s g | Some _ => None end
  | Bol =>
      match prev with
      | None => k prev s g
      | Some c => if is_char newline c then k prev s g else None
      end
  | Eol =>
      match s with
      | [] => k prev s g
      | c :: _ => if is_char newline c then k prev s g else None
      end
  | Seq r1 r2 => mt r1 prev s g (fun prev' s' g' => mt r2 prev' s' g' k)
  | Alt r1 r2 =>
      match mt r1 prev s g k with
      | Some a => Some a
      | None => mt r2 prev s g k
      end
  | Rep true lo p => rep_greedy p lo prev s (fun prev' s' => k prev' s' g)
  | Rep false lo p => rep_lazy p lo prev s (fun prev' s' => k prev' s' g)
  | Opt r' =>
      match mt r' prev s g k with
      | Some a => Some a
      | None => k prev s g
      end
  | Grp i r' =>
      mt r' prev s g (fun prev' s' g' =>
        k prev' s' (<[i := take (length s - length s') s]> g'))
  end.
End Matcher.

(** The length and the groups of the match of [r] that starts here. *)
Definition match_at (r : regex) (prev : option ascii) (s : text)
    : option (nat * groups) :=
  mt r prev s ∅ (fun _ s' g => Some ((length s - length s')%nat, g)).

Record rmatch : Type := { m_start : nat; m_end : nat; m_groups : groups }.

(** [m.group(i)] *)
Definition group (m : rmatch) (i : nat) : text := default [] (m_groups m !! i).

(** [re.match(r, s)] *)
Definition re_match (r : regex) (s : text) : option rmatch :=
  match match_at r None s with
  | Some (n, g) => Some {| m_start := 0; m_end := n; m_groups := g |}
  | None => None
  end.

(** The scan of [re.finditer]: leftmost matches, each search resuming
    where the previous match ended.  [skip] counts the characters of the
    last match still to pass.  No pattern of the scripts matches the empty
    string; such a match would be reported and the scan moved on by one. *)
Fixpoint scan (r : regex) (skip : nat) (prev : option ascii) (pos : nat)
    (s : text) : list rmatch :=
  match s with
  | [] =>
      match skip, match_at r prev [] with
      | O, Some (n, g) => [{| m_start := pos; m_end := pos; m_groups := g |}]
      | _, _ => []
      end
  | c :: s' =>
      match skip with
      | S j => scan r j (Some c) (S pos) s'
      | O =>
          match match_at r prev s with
          | Some (n, g) =>
              {| m_start := pos; m_end := (pos + n)%nat; m_groups := g |}
                :: scan r (pred n) (Some c) (S pos) s'
          | None => scan r 0 (Some c) (S pos) s'
          end
      end
  end.

(** [re.finditer(r, s)] *)
Definition finditer (r : regex) (s : text) : list rmatch := scan r 0 None 0 s.

(** [re.sub(r, repl, s)], [repl] given as a function of the groups. *)
Fixpoint sub_scan (r : regex) (repl : groups → text) (skip : nat)
    (prev : option ascii) (s : text) : text :=
  match s with
  | [] =>
      match skip, match_at r prev [] with
      | O, Some (n, g) => repl g
      | _, _ => []
      end
  | c :: s' =>
      match skip with
      | S j => sub_scan r repl j (Some c) s'
      | O =>
          match match_at r prev s with
          | Some (O, g) => repl g ++ c :: sub_scan r repl 0 (Some c) s'
          | Some (S n, g) => repl g ++ sub_scan r repl n (Some c) s'
          | None => c :: sub_scan r repl 0 (Some c) s'
          end
      end
  end.

Definition sub (r : regex) (repl : groups → text) (s : text) : text :=
  sub_scan r repl 0 None s.

(** A literal string. *)
Fixpoint lit (s : text) : regex :=
  match s with
  | [] => Eps
  | [c] => Chr (is_char c)
  | c :: s' => Seq (Chr (is_char c)) (lit s')
  end.

End Re.

(** ** [parse_error_codes.py] *)

Module parse_error_codes.
Import PyStr Re.

Record StataErrorCode : Type := {
  code : Z;
  name : text;
  description : text;
  category : option text;
  references : option (list text);
  stata_version : text
}.

(** Assign category based on Stata's error code grouping. *)
Definition _assign_category (self_code : Z) : text :=
  if (1 <=? self_code) && (self_code <=? 99) then str "General"
  else if (100 <=? self_code) && (self_code <=? 199) then str "Syntax/Command"
  else if (300 <=? self_code) && (self_code <=? 399) then str "Previously stored result"
  else if (400 <=? self_code) && (self_code <=? 499) then str "Statistical problems"
  else if (500 <=? self_code) && (self_code <=? 599) then str "Matrix manipulation"
  else if (600 <=? self_code) && (self_code <=? 699) then str "File I/O"
  else if (700 <=? self_code) && (self_code <=? 799) then str "Operating system"
  else if (900 <=? self_code) && (self_code <=? 999) then str "Memory/Resources"
  else if (1000 <=? self_code) && (self_code <=? 1999) then str "System limits"
  else if (2000 <=? self_code) && (self_code <=? 2999) then str "Non-errors (continuation)"
  else if (3000 <=? self_code) && (self_code <=? 3999) then str "Mata runtime"
  else if (4000 <=? self_code) && (self_code <=? 4999) then str "Class system"
  else if (7100 <=? self_code) && (self_code <=? 7199) then str "Python runtime"
  else if (9000 <=? self_code) && (self_code <=? 9999) then str "System failure"
  else str "Other".

(** [r'\s+'] *)
Definition ws_pattern : regex := Rep true 1 is_space.

(** [re.sub(r'\s+', ' ', s).strip()] *)
Definition normalize (s : text) : text :=
  strip (sub ws_pattern (fun _ => str " ") s).

Definition __post_init__ (self : StataErrorCode) : StataErrorCode :=
  {| code := code self;
     name := normalize (name self);
     description := normalize (description self);
     category :=
       match category self with
       | None => Some (_assign_category (code self))
       | Some c => Some c
       end;
     references := references self;
     stata_version := stata_version self |}.

(** The constructor call [StataErrorCode(code=.., name=.., description=..,
    references=..)]: [category] is left to its default [None] and
    [stata_version] to ["18"]. *)
Definition new_StataErrorCode (code : Z) (name description : text)
    (references : option (list text)) : StataErrorCode :=
  __post_init__
    {| code := code; name := name; description := description;
       category := None; references := references;
       stata_version := str "18" |}.

Definition sentinel : text := str "No description available".

(** *** Strategy 1: [## r(code) - name] headers *)

Definition not_newline : ascii → bool := neg (is_char newline).

(** [[-–—]]: of the three dashes only the hyphen is below U+0100. *)
Definition is_dash : ascii → bool := is_char "-".

(** [r'^##\s+r\((\d+)\)\s*[-–—]?\s*(.+?)$'] with [re.MULTILINE] *)
Definition header_pattern : regex :=
  Seq Bol (Seq (lit (str "##")) (Seq (Rep true 1 is_space)
  (Seq (lit (str "r(")) (Seq (Grp 1 (Rep true 1 is_digit))
  (Seq (lit (str ")")) (Seq (Rep true 0 is_space) (Seq (Opt (Chr is_dash))
  (Seq (Rep true 0 is_space) (Seq (Grp 2 (Rep false 1 not_newline)) Eol))))))))).

(** [r'^---+$'] with [re.MULTILINE] *)
Definition separator_pattern : regex :=
  Seq Bol (Seq (lit (str "--")) (Seq (Rep true 1 (is_char "-")) Eol)).

Definition header_sections (content : text) : list (Z * text * nat) :=
  (fun m => (int (group m 1), strip (group m 2), m_end m))
    <$> finditer header_pattern content.

Definition header_description (content : text) (start_pos end_pos : nat) : text :=
  let description := strip (slice start_pos end_pos content) in
  let description := sub separator_pattern (fun _ => []) description in
  join (str " ") (split_ws description).

Definition header_records (content : text) (sections : list (Z * text * nat))
    : list StataErrorCode :=
  imap (fun i '(code, name, start_pos) =>
          let end_pos :=
            match sections !! (i + 1)%nat with
            | Some (_, _, next_start) => next_start
            | None => length content
            end in
          let description := header_description content start_pos end_pos in
          new_StataErrorCode code name
            (match description with [] => sentinel | _ => description end)
            None)
       sections.

(** *** Strategy 2: table rows *)

Definition not_bar : ascii → bool := neg (is_char "|").

(** [r'\|\s*(\d+)\s*\|\s*([^|]+?)\s*\|\s*([^|]+?)\s*\|'] *)
Definition table_pattern : regex :=
  Seq (lit (str "|")) (Seq (Rep true 0 is_space) (Seq (Grp 1 (Rep true 1 is_digit))
  (Seq (Rep true 0 is_space) (Seq (lit (str "|")) (Seq (Rep true 0 is_space)
  (Seq (Grp 2 (Rep false 1 not_bar)) (Seq (Rep true 0 is_space)
  (Seq (lit (str "|")) (Seq (Rep true 0 is_space) (Seq (Grp 3 (Rep false 1 not_bar))
  (Seq (Rep true 0 is_space) (lit (str "|"))))))))))))).

Definition table_records (content : text) : list StataErrorCode :=
  (fun m =>
     let code := int (group m 1) in
     let name := strip (group m 2) in
     let description := strip (group m 3) in
     new_StataErrorCode code name description None)
    <$> finditer table_pattern content.

(** *** Strategy 3: numbered list *)

(** [r'^\s*(\d+)\.\s+(.+?)$'] with [re.MULTILINE] *)
Definition numbered_list_pattern : regex :=
  Seq Bol (Seq (Rep true 0 is_space) (Seq (Grp 1 (Rep true 1 is_digit))
  (Seq (lit (str ".")) (Seq (Rep true 1 is_space)
  (Seq (Grp 2 (Rep false 1 not_newline)) Eol))))).

(** [r'^\s*\d+\.'] *)
Definition numbered_start_pattern : regex :=
  Seq Bos (Seq (Rep true 0 is_space) (Seq (Rep true 1 is_digit) (lit (str ".")))).

Definition not_dot : ascii → bool := neg (is_char ".").

(** [r'^([^.]+\.)'] *)
Definition sentence_pattern : regex :=
  Seq Bos (Grp 1 (Seq (Rep true 1 not_dot) (lit (str ".")))).

(** The name taken from the first line of a numbered entry. *)
Definition numbered_name (description_first_line : text) : text :=
  let first_line_clean := sub ws_pattern (fun _ => str " ") description_first_line in
  let name_parts := split1 newline first_line_clean in
  let name_candidate := strip (item name_parts 0) in
  if (100 <? length name_candidate)%nat then
    match re_match sentence_pattern name_candidate with
    | Some sentence_match => strip (group sentence_match 1)
    | None => take 80 name_candidate
    end
  else name_candidate.

(** [[\d\.]] and [[\w\s-]] *)
Definition digit_or_dot (c : ascii) : bool := is_digit c || is_char "." c.
Definition word_space_hyphen (c : ascii) : bool :=
  is_word c || is_space c || is_char "-" c.

(** [ref_pattern] in the order of the source: a bracket, the manual
    [([A-Z]+)], a bracket, [\s+], and group 2, which is either [[\d\.]+]
    with an optional non-capturing tail ([\s+[a-zA-Z]] and any number of
    [[\w\s-]]), or else [[a-zA-Z][\w\s-]+]. *)
Definition ref_pattern : regex :=
  Seq (lit (str "[")) (Seq (Grp 1 (Rep true 1 is_upper)) (Seq (lit (str "]"))
  (Seq (Rep true 1 is_space)
  (Grp 2 (Alt
     (Seq (Rep true 1 digit_or_dot)
          (Opt (Seq (Rep true 1 is_space)
               (Seq (Chr is_alpha) (Rep true 0 word_space_hyphen)))))
     (Seq (Chr is_alpha) (Rep true 1 word_space_hyphen))))))).

(** [r'(\w+)-\s+(\w+)'], replaced by [r'\1\2'] *)
Definition hyphenation_pattern : regex :=
  Seq (Grp 1 (Rep true 1 is_word)) (Seq (lit (str "-"))
  (Seq (Rep true 1 is_space) (Grp 2 (Rep true 1 is_word)))).

Definition hyphenation_repl (g : groups) : text :=
  default [] (g !! 1%nat) ++ default [] (g !! 2%nat).

Definition clean_section (section : text) : text :=
  let section_clean := strip section in
  let section_clean := sub ws_pattern (fun _ => str " ") section_clean in
  let section_clean := sub hyphenation_pattern hyphenation_repl section_clean in
  rstrip_chars (str ".,;:") section_clean.

(** [f"[{manual}] {section_clean}"] *)
Definition ref_key (manual section : text) : text :=
  str "[" ++ manual ++ str "] " ++ clean_section section.

(** One turn of the loop over [references]: the list so far and [seen]. *)
Definition add_reference (st : list text * gset text) (m : text * text)
    : list text * gset text :=
  let '(ref_list, seen) := st in
  let '(manual, section) := m in
  let key := ref_key manual section in
  if decide (key ∈ seen) then (ref_list, seen)
  else (ref_list ++ [key], seen ∪ {[key]}).

(** [re.findall(ref_pattern, full_description)] and the loop after it. *)
Definition extract_references (full_description : text) : list text :=
  let references :=
    (fun m => (group m 1, group m 2)) <$> finditer ref_pattern full_description in
  fst (fold_left add_reference references ([], ∅)).

Definition full_description_of (description_first_line continuation : text) : text :=
  match continuation, re_match numbered_start_pattern continuation with
  | _ :: _, None => description_first_line ++ str " " ++ continuation
  | _, _ => description_first_line
  end.

Definition numbered_list_records (content : text) : list StataErrorCode :=
  let matches := finditer numbered_list_pattern content in
  imap (fun i m =>
          let code := int (group m 1) in
          let description_first_line := strip (group m 2) in
          let start_pos := m_end m in
          let end_pos :=
            match matches !! (i + 1)%nat with
            | Some next => m_start next
            | None => length content
            end in
          let continuation := strip (slice start_pos end_pos content) in
          let full_description :=
            full_description_of description_first_line continuation in
          let name := numbered_name description_first_line in
          let ref_list := extract_references full_description in
          new_StataErrorCode code name full_description
            (match ref_list with [] => None | _ => Some ref_list end))
       matches.

(** *** Strategy 4: bare [r(code)] markers *)

Definition colon_or_hyphen (c : ascii) : bool := is_char ":" c || is_char "-" c.

(** [r'r\((\d+)\)\s*[:-]?\s*([^\n]+)'] *)
Definition simple_pattern : regex :=
  Seq (lit (str "r(")) (Seq (Grp 1 (Rep true 1 is_digit)) (Seq (lit (str ")"))
  (Seq (Rep true 0 is_space) (Seq (Opt (Chr colon_or_hyphen))
  (Seq (Rep true 0 is_space) (Grp 2 (Rep true 1 not_newline))))))).

(** The name and the description split from the text after the marker. *)
Definition inline_split (rest : text) : text * text :=
  if contains "." rest then
    let parts := split1 "." rest in
    (strip (item parts 0),
     if (1 <? length parts)%nat then strip (item parts 1) else [])
  else if contains "-" rest then
    let parts := split1 "-" rest in
    (strip (item parts 0),
     if (1 <? length parts)%nat then strip (item parts 1) else [])
  else (rest, []).

Definition inline_record (code : Z) (rest : text) : StataErrorCode :=
  let '(name, description) := inline_split rest in
  new_StataErrorCode code name
    (match description with [] => name | _ => description end) None.

Definition inline_records (content : text) : list StataErrorCode :=
  (fun m => inline_record (int (group m 1)) (strip (group m 2)))
    <$> finditer simple_pattern content.

(** *** The strategy chain, the sort and the removal of duplicates *)

(** The list [errors] before it is sorted. *)
Definition raw_errors (content : text) : list StataErrorCode :=
  let sections := header_sections content in
  let errors :=
    match sections with
    | _ :: _ => header_records content sections
    | [] => table_records content
    end in
  let errors :=
    match errors with
    | [] => numbered_list_records content
    | _ => errors
    end in
  match errors with
  | [] => inline_records content
  | _ => errors
  end.

(** [list.sort(key=..)] is stable: an element goes before the first one
    whose key is not smaller. *)
Fixpoint insert_by_key {A} (key : A → Z) (x : A) (l : list A) : list A :=
  match l with
  | [] => [x]
  | y :: l' => if key x <=? key y then x :: l else y :: insert_by_key key x l'
  end.

Definition sort_by_key {A} (key : A → Z) (l : list A) : list A :=
  foldr (insert_by_key key) [] l.

(** One turn of the loop over the sorted [errors]. *)
Definition add_unique (st : list StataErrorCode * gset Z) (err : StataErrorCode)
    : list StataErrorCode * gset Z :=
  let '(unique_errors, seen_codes) := st in
  if decide (code err ∈ seen_codes) then (unique_errors, seen_codes)
  else (unique_errors ++ [err], seen_codes ∪ {[code err]}).

Definition remove_duplicates (errors : list StataErrorCode) : list StataErrorCode :=
  fst (fold_left add_unique errors ([], ∅)).

(** [parse_error_codes_markdown], on the text read from [md_path]: the
    list it returns when no [int] raises. *)
Definition parse_error_codes_markdown (content : text) : list StataErrorCode :=
  let errors := raw_errors content in
  let errors := sort_by_key code errors in
  remove_duplicates errors.

(** [int(match.group(1))] raises for a match of [pattern]. *)
Definition code_raises (pattern : regex) (content : text) : bool :=
  existsb (fun m => int_raises (group m 1)) (finditer pattern content).

(** [parse_error_codes_markdown] raises [ValueError]: one of the [int]
    calls that the run reaches does.  The calls follow the strategy chain:
    every header match; the table matches when there is no section; the
    numbered matches, and then the inline ones, while [errors] is empty. *)
Definition raises (content : text) : bool :=
  let sections := header_sections content in
  code_raises header_pattern content
  || (let errors :=
        match sections with
        | _ :: _ => header_records content sections
        | [] => table_records content
        end in
      match sections with
      | _ :: _ => false
      | [] => code_raises table_pattern content
      end
      || match errors with
         | [] =>
             code_raises numbered_list_pattern content
             || match numbered_list_records content with
                | [] => code_raises simple_pattern content
                | _ => false
                end
         | _ => false
         end).

(** *** The JSON artifact *)

#[warnings="-register-all"] Inductive json_value : Type :=
| JNull
| JInt (n : Z)
| JStr (s : text)
| JList (l : list text)
| JObjects (l : list (list (string * json_value))).

Definition of_option {A} (f : A → json_value) (o : option A) : json_value :=
  match o with Some a => f a | None => JNull end.

(** [dataclasses.asdict(err)]: the fields in their declared order. *)
Definition asdict (err : StataErrorCode) : list (string * json_value) :=
  [ ("code"%string, JInt (code err));
    ("name"%string, JStr (name err));
    ("description"%string, JStr (description err));
    ("category"%string, of_option JStr (category err));
    ("references"%string, of_option JList (references err));
    ("stata_version"%string, JStr (stata_version err)) ].

Definition is_null (v : json_value) : bool :=
  match v with JNull => true | _ => false end.

(** [{k: v for k, v in err_dict.items() if v is not None}] *)
Definition clean_dict (d : list (string * json_value)) : list (string * json_value) :=
  List.filter (fun kv => negb (is_null (snd kv))) d.

(** The list [errors_clean] of [export_to_json], written under
    ["errors"]. *)
Definition export_to_json (errors : list StataErrorCode)
    : list (list (string * json_value)) :=
  (fun err => clean_dict (asdict err)) <$> errors.

(** The object [data] that [export_to_json] dumps; [today] is
    [str(date.today())]. *)
Definition data (today : text) (errors : list StataErrorCode)
    : list (string * json_value) :=
  [ ("source"%string, JStr (str "Stata Programming Manual v18"));
    ("pages"%string, JStr (str "209-223"));
    ("extraction_date"%string, JStr today);
    ("stata_version"%string, JStr (str "18"));
    ("total_codes"%string, JInt (Z.of_nat (length errors)));
    ("errors"%string, JObjects (export_to_json errors)) ].

(** *** The CSV artifact and the Rust table *)


(** The escaping of [generate_rust_code], two [replace] calls in a row:
    every backslash becomes two backslashes, then every double quote becomes
    a backslash and a double quote. *)
Definition rust_escape (s : text) : text :=
  replace_char dquote [backslash; dquote]
    (replace_char backslash [backslash; backslash] s).

(** The fields of one [OfficialErrorCode] entry: the code, the escaped
    name, the category (or "General") and the escaped description. *)
Definition rust_entry (err : StataErrorCode) : Z * text * text * text :=
  (code err, rust_escape (name err),
   match category err with
   | Some ((_ :: _) as c) => c
   | _ => str "General"
   end,
   rust_escape (description err)).

Definition generate_rust_code (errors : list StataErrorCode)
    : list (Z * text * text * text) :=
  rust_entry <$> errors.

(** [main]: the exit status, given the text of the input file when the
    file exists, on a file system that lets the five outputs be written.  An
    exception that escapes ends the interpreter with status 1: the
    [ValueError] of [int] in the parser, and that of [str] when the summary
    line or an exporter prints a code. *)
Definition main (raw_md : option text) : Z :=
  match raw_md with
  | None => 1
  | Some content =>
      if raises content then 1
      else
        match parse_error_codes_markdown content with
        | [] => 1
        | errors => if existsb (fun e => str_raises (code e)) errors then 1 else 0
        end
  end.

End parse_error_codes.

(** ** [validate_extraction.py] *)

Module validate_extraction.
Import PyStr parse_error_codes.

(** Error codes we MUST have (commonly seen in practice) *)
Definition REQUIRED_CODES : list Z := [1; 198; 199; 601; 603; 950].

(** One entry of ["errors"] in the JSON artifact, as the checks read it:
    [e['code']], an integer, and what [err.get] returns for ['Code'],
    ['description'] and ['Description'], where [JNull] and [None] stand for
    Python's [None] (the key is absent or holds null) and a description that
    is present is a string. *)
Record json_entry : Type := {
  e_code : Z;
  e_Code : json_value;
  e_description : option text;
  e_Description : option text
}.

(** The object of the JSON artifact, as [main] and [print_summary] read it:
    the entries of [json_data['errors']], and the values under ["source"],
    ["pages"] and ["extraction_date"], [None] when the key is absent. *)
Record json_document : Type := {
  j_errors : list json_entry;
  j_source : option json_value;
  j_pages : option json_value;
  j_extraction_date : option json_value
}.

(** One row of the CSV artifact: the ["Code"] column after [int]. *)
Record csv_row : Type := { row_code : Z }.

(** The lines the checks append; each constructor stands for one format
    string of the source and carries the values formatted into it. *)
Inductive message : Type :=
| MissingRequired (missing : list Z)
| MissingRequiredNote
| DuplicatesFound (duplicates : list Z)
| MissingDescriptions (codes : list json_value)
| MissingDescriptionsMore (n : nat)
| OnlyInJson (codes : list Z)
| OnlyInCsv (codes : list Z)
| GapsHeader
| GapLine (gap start stop : Z)
| GapsMore (n : nat)
| GapsFooter.

(** Check that all required error codes are present. *)
Definition check_required_codes (codes : list Z) : list message :=
  let missing := filter (fun c => c ∉ codes) REQUIRED_CODES in
  match missing with
  | [] => []
  | _ => [MissingRequired missing; MissingRequiredNote]
  end.

Definition add_seen (st : gset Z * gset Z) (c : Z) : gset Z * gset Z :=
  let '(seen, duplicates) := st in
  ((seen ∪ {[c]}), (if decide (c ∈ seen) then duplicates ∪ {[c]} else duplicates)).

Definition sorted (l : list Z) : list Z := sort_by_key (fun c => c) l.

(** Check for duplicate error codes. *)
Definition check_duplicates (codes : list Z) : list message :=
  let '(seen, duplicates) := fold_left add_seen codes (∅, ∅) in
  if decide (duplicates = ∅) then []
  else [DuplicatesFound (sorted (elements duplicates))].

(** [err.get('code') or err.get('Code')]: a zero code is falsy, and then
    the value is what ['Code'] holds, be it falsy too. *)
Definition entry_code (err : json_entry) : json_value :=
  if e_code err =? 0 then e_Code err else JInt (e_code err).

(** [a or b] on two values that are a string or [None]: [a] unless it is
    [None] or the empty string. *)
Definition or_else (a b : option text) : option text :=
  match a with
  | Some (_ :: _) => a
  | _ => b
  end.

(** [desc = err.get('description') or err.get('Description')] and the test
    [not desc or desc.strip() == ''] *)
Definition lacks_description (err : json_entry) : bool :=
  let desc := or_else (e_description err) (e_Description err) in
  match desc with
  | None | Some [] => true
  | Some desc => match strip desc with [] => true | _ => false end
  end.

(** Check that all errors have descriptions. *)
Definition check_descriptions (error_data : list json_entry) : list message :=
  let missing := entry_code <$> List.filter lacks_description error_data in
  match missing with
  | [] => []
  | _ =>
      MissingDescriptions (take 10 missing)
        :: (if (10 <? length missing)%nat
            then [MissingDescriptionsMore (length missing - 10)] else [])
  end.

(** The pairs of neighbours of a sorted list that are more than 20 apart. *)
Fixpoint large_gaps (sorted_codes : list Z) : list (Z * Z * Z) :=
  match sorted_codes with
  | a :: (b :: _) as rest =>
      let gap := b - a in
      if 20 <? gap then (a, b, gap) :: large_gaps rest else large_gaps rest
  | _ => []
  end.

(** Check for suspicious gaps in error code ranges. *)
Definition check_code_ranges (codes : list Z) : list message :=
  let gaps := large_gaps (sorted codes) in
  match gaps with
  | [] => []
  | _ =>
      GapsHeader
        :: ((fun '(start, stop, gap) => GapLine gap start stop) <$> take 5 gaps)
        ++ (if (5 <? length gaps)%nat then [GapsMore (length gaps - 5)] else [])
        ++ [GapsFooter]
  end.

(** Check that JSON and CSV have the same error codes. *)
Definition check_file_consistency (json_data : list json_entry)
    (csv_data : list csv_row) : list message :=
  let json_codes : gset Z := list_to_set (e_code <$> json_data) in
  let csv_codes : gset Z := list_to_set (row_code <$> csv_data) in
  if decide (json_codes = csv_codes) then []
  else
    let only_json := json_codes ∖ csv_codes in
    let only_csv := csv_codes ∖ json_codes in
    (if decide (only_json = ∅) then []
     else [OnlyInJson (take 10 (sorted (elements only_json)))])
    ++ (if decide (only_csv = ∅) then []
        else [OnlyInCsv (take 10 (sorted (elements only_csv)))]).

(** What [main] finds of an artifact at its path. *)
Inductive artifact (A : Type) : Type :=
| Absent
| Malformed
| Loaded (data : A).
Arguments Absent {A}.
Arguments Malformed {A}.
Arguments Loaded {A} data.

(** [main] either returns a status or lets an exception escape. *)
Inductive outcome : Type :=
| Return (status : Z)
| Raise (exception : string).

(** [all_errors] and [all_warnings] of [main], from [json_data['errors']]
    and the rows of the CSV artifact. *)
Definition run_checks (errors : list json_entry) (csv_data : list csv_row)
    : list message * list message :=
  let codes := e_code <$> errors in
  let all_errors :=
    check_required_codes codes ++ check_duplicates codes
      ++ check_descriptions errors ++ check_file_consistency errors csv_data in
  let all_warnings := check_code_ranges codes in
  (all_errors, all_warnings).

(** [print_summary]: the exception it raises, if any.  It takes
    [min(codes)] and [max(codes)], which raise on an empty list, and then
    indexes [json_data] with ["source"], ["pages"] and
    ["extraction_date"]. *)
Definition print_summary (json_data : json_document) : option string :=
  match j_errors json_data with
  | [] => Some "ValueError"%string
  | _ =>
      match j_source json_data, j_pages json_data, j_extraction_date json_data with
      | Some _, Some _, Some _ => None
      | _, _, _ => Some "KeyError"%string
      end
  end.

(** Run all validation checks. *)
Definition main (json : artifact json_document) (csv : artifact (list csv_row))
    : outcome :=
  match json, csv with
  | Absent, _ => Return 1
  | _, Absent => Return 1
  | Malformed, _ => Return 1
  | _, Malformed => Return 1
  | Loaded json_data, Loaded csv_data =>
      let errors := j_errors json_data in
      let '(all_errors, all_warnings) := run_checks errors csv_data in
      match print_summary json_data with
      | Some exception => Raise exception
      | None =>
          match all_errors with
          | [] => Return 0
          | _ => Return 1
          end
      end
  end.

(** [exit(main())]: the status [main] returns, and 1 when an exception
    ends the interpreter. *)
Definition exit_status (o : outcome) : Z :=
  match o with
  | Return status => status
  | Raise _ => 1
  end.

(** *** Reading the artifacts back *)

(** [d[key]] on the pairs of a JSON object; of two pairs with one key
    the later one counts, as in the [dict] that [json.load] builds. *)
Definition get_key (key : string) (d : list (string * json_value))
    : option json_value :=
  snd <$> List.find (fun kv => String.eqb kv.1 key) (rev d).

(** [err.get(key)] for a description: a string, or [None] when the key
    is absent or holds null.  The outer [None] tells that the value is of
    another type, which the checks are not modelled for. *)
Definition get_text (key : string) (d : list (string * json_value))
    : option (option text) :=
  match get_key key d with
  | None | Some JNull => Some None
  | Some (JStr s) => Some (Some s)
  | Some _ => None
  end.

(** An entry of ["errors"] as the checks read it; [None] when ['code'] is
    missing ([KeyError]) or is not an integer, or a description is not a
    string. *)
Definition read_entry (d : list (string * json_value)) : option json_entry :=
  match get_key "code" d, get_text "description" d, get_text "Description" d with
  | Some (JInt n), Some description, Some Description =>
      Some {| e_code := n;
              e_Code := default JNull (get_key "Code" d);
              e_description := description;
              e_Description := Description |}
  | _, _, _ => None
  end.

Definition read_json (errors : list (list (string * json_value)))
    : option (list json_entry) :=
  mapM read_entry errors.




End validate_extraction.

(** ** Reference definitions

    What the properties below compare the code with: the category table,
    the strategy chain as a list of functions, removal of duplicates as a
    recursive function, whitespace collapse without the matcher, and the
    declarative meaning of a pattern. *)

Module Spec.
Import PyStr Re parse_error_codes validate_extraction.

(** The closed intervals of the classifier and their labels. *)
Definition category_table : list (Z * Z * text) :=
  [ (1, 99, str "General");
    (100, 199, str "Syntax/Command");
    (300, 399, str "Previously stored result");
    (400, 499, str "Statistical problems");
    (500, 599, str "Matrix manipulation");
    (600, 699, str "File I/O");
    (700, 799, str "Operating system");
    (900, 999, str "Memory/Resources");
    (1000, 1999, str "System limits");
    (2000, 2999, str "Non-errors (continuation)");
    (3000, 3999, str "Mata runtime");
    (4000, 4999, str "Class system");
    (7100, 7199, str "Python runtime");
    (9000, 9999, str "System failure") ].

Definition in_interval (n : Z) (row : Z * Z * text) : Prop :=
  row.1.1 <= n <= row.1.2.

(** The four strategies, each a function of the whole text. *)
Definition header_strategy (content : text) : list StataErrorCode :=
  header_records content (header_sections content).

Definition strategies : list (text → list StataErrorCode) :=
  [header_strategy; table_records; numbered_list_records; inline_records].

(** The output of the first strategy that produces a record. *)
Fixpoint first_nonempty {R} (l : list (text → list R)) (content : text) : list R :=
  match l with
  | [] => []
  | s :: l' =>
      match s content with
      | [] => first_nonempty l' content
      | records => records
      end
  end.

(** Keep the first element of each key and drop the later ones. *)
Fixpoint keep_first {A K} `{EqDecision K} (key : A → K) (l : list A) : list A :=
  match l with
  | [] => []
  | x :: l' => x :: filter (fun y => key y ≠ key x) (keep_first key l')
  end.

(** The records that a call of the constructor returns. *)
Definition constructed (r : StataErrorCode) : Prop :=
  ∃ c n d refs, r = new_StataErrorCode c n d refs.

(** Ascending and strictly ascending by key. *)
Definition key_le {A} (key : A → Z) (a b : A) : Prop := key a <= key b.
Definition key_lt {A} (key : A → Z) (a b : A) : Prop := key a < key b.

(** The first element of a list with a given code. *)
Definition first_with_code (c : Z) (l : list StataErrorCode) : option StataErrorCode :=
  List.find (fun e => code e =? c) l.

(** Whitespace runs replaced by one space; [in_run] tells that the
    preceding character was whitespace. *)
Fixpoint collapse_from (in_run : bool) (s : text) : text :=
  match s with
  | [] => []
  | c :: s' =>
      if is_space c
      then (if in_run then collapse_from true s' else " "%char :: collapse_from true s')
      else c :: collapse_from false s'
  end.

Definition collapse_ws (s : text) : text := collapse_from false s.

(** Every whitespace character is a space and no two spaces are adjacent. *)
Fixpoint single_spaced (s : text) : bool :=
  match s with
  | [] => true
  | c :: s' =>
      (negb (is_space c) || is_char " " c)
      && match s' with
         | d :: _ => negb (is_space c && is_space d)
         | [] => true
         end
      && single_spaced s'
  end.

(** No whitespace at either end. *)
Definition trimmed (s : text) : Prop :=
  (∀ c, head s = Some c → is_space c = false)
  ∧ (∀ c, last s = Some c → is_space c = false).

(** The length of the longest prefix in class [p]. *)
Fixpoint run_length (p : ascii → bool) (s : text) : nat :=
  match s with
  | c :: s' => if p c then S (run_length p s') else O
  | [] => O
  end.

(** The character before the position reached after [w]. *)
Definition prev_after (prev : option ascii) (w : text) : option ascii :=
  match last w with Some c => Some c | None => prev end.

(** [matches r prev w rest g g']: at a position preceded by [prev], the
    pattern [r] can consume [w] with [rest] left, turning the groups [g]
    into [g']. *)
Inductive matches : regex → option ascii → text → text → groups → groups → Prop :=
| M_Eps prev rest g : matches Eps prev [] rest g g
| M_Chr p c prev rest g : p c = true → matches (Chr p) prev [c] rest g g
| M_Bos rest g : matches Bos None [] rest g g
| M_Bol prev rest g :
    (∀ c, prev = Some c → c = newline) → matches Bol prev [] rest g g
| M_Eol prev rest g :
    (∀ c, head rest = Some c → c = newline) → matches Eol prev [] rest g g
| M_Seq r1 r2 prev w1 w2 rest g g1 g2 :
    matches r1 prev w1 (w2 ++ rest) g g1 →
    matches r2 (prev_after prev w1) w2 rest g1 g2 →
    matches (Seq r1 r2) prev (w1 ++ w2) rest g g2
| M_Alt_l r1 r2 prev w rest g g' :
    matches r1 prev w rest g g' → matches (Alt r1 r2) prev w rest g g'
| M_Alt_r r1 r2 prev w rest g g' :
    matches r2 prev w rest g g' → matches (Alt r1 r2) prev w rest g g'
| M_Rep greedy lo p prev w rest g :
    forallb p w = true → (lo <= length w)%nat →
    matches (Rep greedy lo p) prev w rest g g
| M_Opt_some r prev w rest g g' :
    matches r prev w rest g g' → matches (Opt r) prev w rest g g'
| M_Opt_none r prev rest g : matches (Opt r) prev [] rest g g
| M_Grp i r prev w rest g g' :
    matches r prev w rest g g' → matches (Grp i r) prev w rest g (<[i := w]> g').

(** The name rule of the numbered-list strategy on a collapsed, trimmed
    first line [c]. *)
Definition upto_first_period (c : text) : text :=
  item (split1 "." c) 0 ++ str ".".

Definition name_rule (c : text) : text :=
  if (length c <=? 100)%nat then c
  else match c with
       | first :: _ =>
           if negb (is_char "." first) && contains "." c
           then upto_first_period c
           else rstrip_by is_space (take 80 c)
       | [] => []
       end.

(** Blank text: empty, or whitespace only. *)
Definition blank (s : text) : bool := forallb is_space s.

(** An entry without a description in the sense of the completeness
    check: its ['description'] is blank without being empty, or it has none
    (the key is absent or holds null or the empty string) and its
    ['Description'] is absent, null or blank. *)
Definition undescribed (e : json_entry) : bool :=
  match e_description e with
  | Some (c :: d) => blank (c :: d)
  | _ => match e_Description e with Some d => blank d | None => true end
  end.

(** The entry that the checks read from the JSON object of a record. *)
Definition entry_of (r : StataErrorCode) : json_entry :=
  {| e_code := code r; e_Code := JNull;
     e_description := Some (description r); e_Description := None |}.

(** How a string literal of the generated table reads the text between
    its quotes: a backslash and the character after it stand for that
    character. *)
Fixpoint rust_unescape_from (escaped : bool) (s : text) : text :=
  match s with
  | [] => []
  | c :: s' =>
      if escaped then c :: rust_unescape_from false s'
      else if is_char backslash c then rust_unescape_from true s'
      else c :: rust_unescape_from false s'
  end.

Definition rust_unescape (s : text) : text := rust_unescape_from false s.

(** The spans of the matches [ms] lie between [lo] and [hi], in order and
    without overlap. *)
Fixpoint spans_ordered (lo hi : nat) (ms : list rmatch) : Prop :=
  match ms with
  | [] => True
  | m :: ms' =>
      (lo <= m_start m)%nat ∧ (m_start m <= m_end m)%nat ∧ (m_end m <= hi)%nat
      ∧ spans_ordered (m_end m) hi ms'
  end.

End Spec.

(** ** Input texts of the scenarios *)

Module Inputs.
Import PyStr parse_error_codes validate_extraction.

Definition nl : text := [newline].

(** The end-to-end scenario: two headers, each with one paragraph. *)
Definition two_headers : text :=
  str "## r(1) - Generic error" ++ nl ++ nl ++ str "Catchall error code."
    ++ nl ++ nl ++ str "## r(199) - Unrecognized command" ++ nl ++ nl
    ++ str "The command could not be parsed.".

(** A text in the numbered-list form only. *)
Definition numbered_only : text :=
  str " 1. You pressed Break; see [U] 9 and [D] append." ++ nl
    ++ str " 2. connection timed out".

(** A first line of 110 characters without a period whose 80th character
    is a space, and one of 111 characters that begins with a period. *)
Definition long_line : text :=
  replicate 79 "a"%char ++ str " " ++ replicate 30 "b"%char.

Definition dotted_line : text := str "." ++ replicate 110 "a"%char.

(** A header whose code has one digit more than [int] reads. *)
Definition long_code : text :=
  str "## r(" ++ replicate 4301 "1"%char ++ str ") overflow".

(** An artifact without code 601, with 603 and 608 five apart. *)
Definition entry (c : Z) : json_entry :=
  {| e_code := c; e_Code := JNull;
     e_description := Some (str "text"); e_Description := None |}.

Definition document (errors : list json_entry) : json_document :=
  {| j_errors := errors;
     j_source := Some (JStr (str "Stata Programming Manual v18"));
     j_pages := Some (JStr (str "209-223"));
     j_extraction_date := Some (JStr (str "2025-01-01")) |}.

Definition json_without_601 : json_document :=
  document (entry <$> [1; 198; 199; 603; 608; 950]).

Definition csv_without_601 : list csv_row :=
  Build_csv_row <$> [1; 198; 199; 603; 608; 950].

(** A complete artifact; its codes lie far apart. *)
Definition json_complete : json_document :=
  document (entry <$> [1; 198; 199; 601; 603; 950]).


Definition csv_complete : list csv_row :=
  Build_csv_row <$> [1; 198; 199; 601; 603; 950].

End Inputs.

Import PyStr Re parse_error_codes validate_extraction Spec.

(** ** Lists: keeping the first element of each key *)

Section KeepFirst.
Context {A K : Type} `{EqDecision K} (key : A → K).

Lemma elem_of_keep_first x l : x ∈ keep_first key l → x ∈ l.
Proof.
  induction l as [|y l IH]; simpl; [done|].
  rewrite elem_of_cons, list_elem_of_filter.
  intros [->|[_ ?]]; [left|right; auto].
Qed.

Lemma keep_first_NoDup l : NoDup (key <$> keep_first key l).
Proof.
  induction l as [|y l IH]; simpl; [constructor|].
  constructor.
  - rewrite list_elem_of_fmap. intros (z & Hz & Hin).
    apply list_elem_of_filter in Hin as [Hne _]. congruence.
  - apply (sublist_NoDup _ _ IH), fmap_sublist, sublist_filter.
Qed.

Lemma keep_first_sublist l : keep_first key l `sublist_of` l.
Proof.
  induction l as [|y l IH]; simpl; [done|].
  constructor. etrans; [apply sublist_filter|done].
Qed.

Lemma keep_first_find x l :
  x ∈ keep_first key l
  ↔ List.find (fun e => bool_decide (key e = key x)) l = Some x.
Proof.
  induction l as [|y l IH]; simpl.
  - split; [by intros ?%elem_of_nil|done].
  - rewrite elem_of_cons, list_elem_of_filter, IH.
    case_bool_decide as Hk.
    + split; [intros [->|[? _]]; [done|congruence]|].
      intros [= ->]. by left.
    + split; [intros [->|[_ ?]]; [done|auto]|].
      intros ?. right. split; [congruence|done].
Qed.

Lemma keep_first_complete x l :
  x ∈ l → ∃ y, y ∈ keep_first key l ∧ key y = key x.
Proof.
  induction l as [|z l IH]; [by intros ?%elem_of_nil|].
  intros [->|Hin]%elem_of_cons; simpl.
  - exists z. split; [left|done].
  - destruct (IH Hin) as (y & Hy & Heq).
    destruct (decide (key y = key z)) as [Hz|Hz].
    + exists z. split; [left|congruence].
    + exists y. split; [|done]. right. by apply list_elem_of_filter.
Qed.

End KeepFirst.

(** ** Lists: the stable sort *)

Section SortAndUnique.
Context {A : Type} (key : A → Z).

#[local] Abbreviation key_le := (Spec.key_le key).
#[local] Abbreviation key_lt := (Spec.key_lt key).

Lemma insert_by_key_perm x l : insert_by_key key x l ≡ₚ x :: l.
Proof.
  induction l as [|y l IH]; simpl; [done|].
  destruct (key x <=? key y); [done|].
  rewrite IH. apply Permutation_swap.
Qed.

Lemma sort_by_key_perm l : sort_by_key key l ≡ₚ l.
Proof.
  induction l as [|x l IH]; simpl; [done|].
  unfold sort_by_key in *. simpl. by rewrite insert_by_key_perm, IH.
Qed.

Lemma elem_of_sort_by_key x l : x ∈ sort_by_key key l ↔ x ∈ l.
Proof. by rewrite sort_by_key_perm. Qed.

Lemma insert_by_key_sorted x l :
  StronglySorted key_le l → StronglySorted key_le (insert_by_key key x l).
Proof.
  induction 1 as [|y l Hs IH Hall]; simpl.
  - repeat constructor.
  - destruct (Z.leb_spec (key x) (key y)) as [Hle|Hlt].
    + constructor; [by constructor|].
      constructor; [done|].
      eapply Forall_impl; [exact Hall|]. unfold Spec.key_le. intros; lia.
    + constructor; [done|].
      rewrite insert_by_key_perm. constructor; [|done].
      unfold Spec.key_le; lia.
Qed.

Lemma sort_by_key_sorted l : StronglySorted key_le (sort_by_key key l).
Proof.
  induction l as [|x l IH]; [constructor|].
  by apply insert_by_key_sorted.
Qed.

(** The sort is stable: the elements of one key keep their order. *)
Lemma insert_by_key_filter c x l :
  filter (fun e => key e = c) (insert_by_key key x l)
  = filter (fun e => key e = c) (x :: l).
Proof.
  induction l as [|y l IH]; simpl; [done|].
  destruct (Z.leb_spec (key x) (key y)) as [Hle|Hlt]; [done|].
  rewrite (filter_cons _ y (insert_by_key key x l)), IH.
  rewrite !filter_cons.
  repeat case_decide; try done; lia.
Qed.

Lemma sort_by_key_stable c l :
  filter (fun e => key e = c) (sort_by_key key l) = filter (fun e => key e = c) l.
Proof.
  induction l as [|x l IH]; [done|].
  change (sort_by_key key (x :: l)) with (insert_by_key key x (sort_by_key key l)).
  rewrite insert_by_key_filter, !filter_cons, IH. done.
Qed.

Lemma find_head_filter c (l : list A) :
  List.find (fun e => key e =? c) l = head (filter (fun e => key e = c) l).
Proof.
  induction l as [|x l IH]; simpl; [done|].
  rewrite filter_cons.
  destruct (Z.eqb_spec (key x) c); case_decide; try done.
Qed.

Lemma find_sort_by_key c l :
  List.find (fun e => key e =? c) (sort_by_key key l)
  = List.find (fun e => key e =? c) l.
Proof. by rewrite !find_head_filter, sort_by_key_stable. Qed.

Lemma find_code_eqb (c : Z) (l : list A) :
  List.find (fun e => key e =? c) l = List.find (fun e => bool_decide (key e = c)) l.
Proof.
  induction l as [|x l IH]; simpl; [done|].
  rewrite IH. by destruct (Z.eqb_spec (key x) c); case_bool_decide.
Qed.

Lemma sorted_NoDup_strict (l : list A) :
  StronglySorted key_le l → NoDup (key <$> l) → StronglySorted key_lt l.
Proof.
  induction 1 as [|y l Hs IH Hall]; intros Hnd; [constructor|].
  apply NoDup_cons in Hnd as [Hnotin Hnd].
  constructor; [auto|].
  apply Forall_forall. intros z Hz.
  rewrite Forall_forall in Hall. specialize (Hall z Hz).
  unfold Spec.key_le, Spec.key_lt in *.
  assert (key z ≠ key y); [|lia].
  intros Heq. apply Hnotin. rewrite <- Heq. apply list_elem_of_fmap. eauto.
Qed.

Lemma sublist_StronglySorted (R : A → A → Prop) (l1 l2 : list A) :
  l1 `sublist_of` l2 → StronglySorted R l2 → StronglySorted R l1.
Proof.
  induction 1 as [|x l1 l2 Hsub IH|x l1 l2 Hsub IH]; intros Hs; [done|..].
  - apply StronglySorted_inv in Hs as [Hs Hall].
    constructor; [auto|].
    rewrite Forall_forall in Hall |- *.
    intros z Hz. eapply Hall, elem_of_sublist; eauto.
  - apply StronglySorted_inv in Hs as [Hs _]. auto.
Qed.

Lemma keep_first_sorted l :
  StronglySorted key_le l → StronglySorted key_lt (keep_first key l).
Proof.
  intros Hs. apply sorted_NoDup_strict; [|apply keep_first_NoDup].
  eapply sublist_StronglySorted; [apply keep_first_sublist|done].
Qed.

End SortAndUnique.

(** ** The loop that removes duplicate codes *)

Lemma remove_duplicates_loop (l acc : list StataErrorCode) (seen : gset Z) :
  (fold_left add_unique l (acc, seen)).1
  = acc ++ filter (fun e => code e ∉ seen) (keep_first code l).
Proof.
  revert acc seen. induction l as [|x l IH]; intros acc seen; simpl.
  - by rewrite app_nil_r.
  - case_decide as Hin; rewrite IH.
    + f_equal. rewrite filter_cons_False by tauto.
      rewrite list_filter_filter. apply list_filter_iff.
      intros e. split; [|tauto]. intros He. split; [done|]. congruence.
    + rewrite <- app_assoc. f_equal. simpl.
      rewrite filter_cons_True by done. f_equal.
      rewrite list_filter_filter. apply list_filter_iff.
      intros e. rewrite not_elem_of_union, not_elem_of_singleton. tauto.
Qed.

Lemma remove_duplicates_keep_first (l : list StataErrorCode) :
  remove_duplicates l = keep_first code l.
Proof.
  unfold remove_duplicates. rewrite remove_duplicates_loop. simpl.
  induction (keep_first code l) as [|x k IH]; [done|].
  rewrite filter_cons_True by set_solver. by f_equal.
Qed.

Lemma elem_of_parse (content : text) (r : StataErrorCode) :
  r ∈ parse_error_codes_markdown content → r ∈ raw_errors content.
Proof.
  unfold parse_error_codes_markdown. rewrite remove_duplicates_keep_first.
  intros Hin%elem_of_keep_first. by apply elem_of_sort_by_key in Hin.
Qed.

(** ** Every record is built by the constructor *)

Lemma header_records_constructed content sections r :
  r ∈ header_records content sections → constructed r.
Proof.
  unfold header_records. intros (i & [[c n] p] & -> & _)%elem_of_lookup_imap.
  by eexists _, _, _, _.
Qed.

Lemma table_records_constructed content r :
  r ∈ table_records content → constructed r.
Proof.
  unfold table_records. intros (m & -> & _)%list_elem_of_fmap.
  by eexists _, _, _, _.
Qed.

Lemma numbered_list_records_constructed content r :
  r ∈ numbered_list_records content → constructed r.
Proof.
  unfold numbered_list_records. intros (i & m & -> & _)%elem_of_lookup_imap.
  by eexists _, _, _, _.
Qed.

Lemma inline_records_constructed content r :
  r ∈ inline_records content → constructed r.
Proof.
  unfold inline_records. intros (m & -> & _)%list_elem_of_fmap.
  unfold inline_record. destruct (inline_split _). by eexists _, _, _, _.
Qed.

Lemma raw_errors_chain (content : text) :
  raw_errors content = first_nonempty strategies content.
Proof.
  unfold raw_errors, strategies, header_strategy. simpl.
  destruct (header_sections content) as [|s sections] eqn:Hs.
  - simpl. destruct (table_records content); [|done].
    destruct (numbered_list_records content); [|done].
    by destruct (inline_records content).
  - destruct (header_records content (s :: sections)) eqn:Hh; [|done].
    unfold header_records in Hh. by destruct s as [[? ?] ?].
Qed.

Lemma raw_errors_constructed content r :
  r ∈ raw_errors content → constructed r.
Proof.
  rewrite raw_errors_chain. unfold strategies, header_strategy. simpl.
  destruct (header_records _ _) eqn:?;
    [|rewrite <- Heql; apply header_records_constructed].
  destruct (table_records _) eqn:?;
    [|rewrite <- Heql0; apply table_records_constructed].
  destruct (numbered_list_records _) eqn:?;
    [|rewrite <- Heql1; apply numbered_list_records_constructed].
  destruct (inline_records _) eqn:?;
    [by intros ?%elem_of_nil|rewrite <- Heql2; apply inline_records_constructed].
Qed.

(** ** The category classifier *)

Ltac split_leb :=
  repeat match goal with
         | |- context [?a <=? ?b] =>
             destruct (Z.leb_spec a b); simpl; try lia
         end.

Lemma assign_category_in_row (n : Z) (row : Z * Z * text) :
  row ∈ category_table → in_interval n row → _assign_category n = row.2.
Proof.
  unfold category_table, in_interval. intros Hin Hn.
  repeat (apply elem_of_cons in Hin as [->|Hin]);
    [..|by apply elem_of_nil in Hin];
    simpl in Hn; unfold _assign_category; split_leb; reflexivity.
Qed.

Lemma assign_category_other (n : Z) :
  (∀ row, row ∈ category_table → ¬ in_interval n row) →
  _assign_category n = str "Other".
Proof.
  intros Hout.
  assert (Hall : Forall (fun row => ¬ in_interval n row) category_table)
    by by apply Forall_forall.
  unfold category_table in Hall.
  repeat (apply Forall_cons in Hall as [? Hall]).
  unfold in_interval in *. simpl in *. unfold _assign_category.
  repeat match goal with
         | |- context [if ?b then _ else _] =>
             let E := fresh "E" in
             destruct b eqn:E;
             [apply andb_true_iff in E as [?%Z.leb_le ?%Z.leb_le]; lia|clear E]
         end.
  reflexivity.
Qed.

Lemma category_table_disjoint (n : Z) (row1 row2 : Z * Z * text) :
  row1 ∈ category_table → row2 ∈ category_table →
  in_interval n row1 → in_interval n row2 → row1 = row2.
Proof.
  unfold category_table, in_interval. intros H1 H2 Hn1 Hn2.
  repeat (apply elem_of_cons in H1 as [->|H1]);
    [..|by apply elem_of_nil in H1]; simpl in Hn1;
    repeat (apply elem_of_cons in H2 as [->|H2]);
    try (by apply elem_of_nil in H2); simpl in Hn2;
    first [reflexivity | lia].
Qed.

Lemma constructed_category (r : StataErrorCode) :
  constructed r → category r = Some (_assign_category (code r)).
Proof. by intros (c & n & d & refs & ->). Qed.

(** C2. The classifier is a total function of the code.  A code inside a
    row of the table of closed intervals gets the label of that row, no
    code lies in two rows, a code outside every row gets "Other", and the
    category of every record the parser returns is the classifier's label
    for its code.  Codes 1, 150, 950, 9500 and 10000 map to "General",
    "Syntax/Command", "Memory/Resources", "System failure" and "Other". *)
Theorem category_classifier_total_and_exact :
  (∀ (n : Z) row, row ∈ category_table → in_interval n row →
     _assign_category n = row.2)
  ∧ (∀ (n : Z) row1 row2, row1 ∈ category_table → row2 ∈ category_table →
       in_interval n row1 → in_interval n row2 → row1 = row2)
  ∧ (∀ n : Z, (∀ row, row ∈ category_table → ¬ in_interval n row) →
       _assign_category n = str "Other")
  ∧ (∀ content r, r ∈ parse_error_codes_markdown content →
       category r = Some (_assign_category (code r)))
  ∧ _assign_category 1 = str "General"
  ∧ _assign_category 150 = str "Syntax/Command"
  ∧ _assign_category 950 = str "Memory/Resources"
  ∧ _assign_category 9500 = str "System failure"
  ∧ _assign_category 10000 = str "Other".
Proof.
  split; [exact assign_category_in_row|].
  split; [exact category_table_disjoint|].
  split; [exact assign_category_other|].
  split; [|by repeat split].
  intros content r Hr.
  by apply constructed_category, (raw_errors_constructed content), elem_of_parse.
Qed.

Lemma category_classifier_witness :
  _assign_category 150 = str "Syntax/Command"
  ∧ ((100, 199, str "Syntax/Command") = (100, 199, str "Syntax/Command"))
  ∧ _assign_category 250 = str "Other"
  ∧ (∀ r, r ∈ parse_error_codes_markdown Inputs.two_headers →
       category r = Some (_assign_category (code r))).
Proof.
  destruct category_classifier_total_and_exact as (Hrow & Hdisj & Hother & Hrec & _).
  split; [|split; [|split]].
  - apply (Hrow 150 (100, 199, str "Syntax/Command")).
    + unfold category_table. set_solver.
    + unfold in_interval. simpl. lia.
  - apply (Hdisj 150); unfold category_table, in_interval; simpl;
      first [lia | set_solver].
  - apply (Hother 250). unfold category_table, in_interval. intros row Hin.
    repeat (apply elem_of_cons in Hin as [->|Hin]);
      [..|by apply elem_of_nil in Hin]; simpl; lia.
  - apply Hrec.
Defined.

(** ** The sort and the removal of duplicates *)

(** C3. For every input text the list the parser returns is strictly
    ascending by code, hence without duplicate codes.  It is the stably
    sorted list of the strategy's records with only the first record of each
    code kept: a record is returned exactly when it is the first record of
    its code in the strategy's output, and it is returned as it was built. *)
Theorem parse_sorted_without_duplicates (content : text) :
  StronglySorted (key_lt code) (parse_error_codes_markdown content)
  ∧ NoDup (code <$> parse_error_codes_markdown content)
  ∧ parse_error_codes_markdown content
    = keep_first code (sort_by_key code (raw_errors content))
  ∧ sort_by_key code (raw_errors content) ≡ₚ raw_errors content
  ∧ StronglySorted (key_le code) (sort_by_key code (raw_errors content))
  ∧ (∀ r, r ∈ parse_error_codes_markdown content
          ↔ first_with_code (code r) (raw_errors content) = Some r).
Proof.
  assert (Heq : parse_error_codes_markdown content
                = keep_first code (sort_by_key code (raw_errors content))).
  { unfold parse_error_codes_markdown. apply remove_duplicates_keep_first. }
  rewrite Heq. repeat split.
  - apply keep_first_sorted, sort_by_key_sorted.
  - apply keep_first_NoDup.
  - apply sort_by_key_perm.
  - apply sort_by_key_sorted.
  - intros Hin. apply keep_first_find in Hin.
    unfold first_with_code. rewrite <- find_sort_by_key. by rewrite find_code_eqb.
  - intros Hfind. apply keep_first_find.
    unfold first_with_code in Hfind.
    by rewrite <- find_code_eqb, find_sort_by_key.
Qed.

(** ** The strategy chain *)

(** C4. The parser takes the output of the first of the four strategies,
    in the order header, table, numbered list, inline, that produces a
    record, and of that one only; a later strategy is used only when all the
    earlier ones produce nothing.  A text for which the header and the table
    strategies find nothing and the numbered-list strategy finds records is
    parsed from the numbered-list records alone. *)
Theorem strategy_chain_first_nonempty (content : text) :
  raw_errors content = first_nonempty strategies content
  ∧ (header_strategy content ≠ [] → raw_errors content = header_strategy content)
  ∧ (header_strategy content = [] → table_records content ≠ [] →
       raw_errors content = table_records content)
  ∧ (header_strategy content = [] → table_records content = [] →
       numbered_list_records content ≠ [] →
       raw_errors content = numbered_list_records content
       ∧ parse_error_codes_markdown content
         = remove_duplicates (sort_by_key code (numbered_list_records content)))
  ∧ (header_strategy content = [] → table_records content = [] →
       numbered_list_records content = [] →
       raw_errors content = inline_records content).
Proof.
  unfold parse_error_codes_markdown.
  rewrite raw_errors_chain. unfold strategies. simpl.
  split; [done|].
  destruct (header_strategy content); [|by repeat split].
  destruct (table_records content); [|by repeat split].
  destruct (numbered_list_records content); [|by repeat split].
  repeat split; try done. by destruct (inline_records content).
Qed.

Lemma strategy_chain_witness :
  header_strategy Inputs.numbered_only = []
  ∧ table_records Inputs.numbered_only = []
  ∧ inline_records Inputs.numbered_only = []
  ∧ numbered_list_records Inputs.numbered_only ≠ []
  ∧ raw_errors Inputs.numbered_only = numbered_list_records Inputs.numbered_only.
Proof.
  split; [by vm_compute|]. split; [by vm_compute|]. split; [by vm_compute|].
  split; [by vm_compute|].
  apply (strategy_chain_first_nonempty Inputs.numbered_only); by vm_compute.
Defined.

(** ** The end-to-end scenario *)

(** C5 (evaluation of the code). On the scenario text the scope of the
    first entry runs to the end of the next header line, so the description
    of code 1 carries that header line after its own paragraph. *)
Theorem two_headers_parse :
  parse_error_codes_markdown Inputs.two_headers
  = [ {| code := 1; name := str "Generic error";
         description :=
           str "Catchall error code. ## r(199) - Unrecognized command";
         category := Some (str "General"); references := None;
         stata_version := str "18" |};
      {| code := 199; name := str "Unrecognized command";
         description := str "The command could not be parsed.";
         category := Some (str "Syntax/Command"); references := None;
         stata_version := str "18" |} ].
Proof. by vm_compute. Qed.

(** ** The validator *)

Lemma large_gaps_spec (l : list Z) (a b gap : Z) :
  (a, b, gap) ∈ large_gaps l → 20 < gap ∧ gap = b - a.
Proof.
  induction l as [|x l IH]; simpl; [by intros ?%elem_of_nil|].
  destruct l as [|y l]; [by intros ?%elem_of_nil|].
  destruct (Z.ltb_spec 20 (y - x)); [|exact IH].
  intros [[= -> -> ->]|Hin]%elem_of_cons; [done|by apply IH].
Qed.

Lemma gap_line_spec (codes : list Z) (gap start stop : Z) :
  GapLine gap start stop ∈ check_code_ranges codes →
  20 < gap ∧ gap = stop - start.
Proof.
  unfold check_code_ranges.
  destruct (large_gaps (sorted codes)) as [|g gaps] eqn:Hg;
    [by intros ?%elem_of_nil|].
  rewrite elem_of_cons, !elem_of_app, list_elem_of_fmap.
  intros [?|[([[a b] c] & [= -> -> ->] & Hin)|[Hin|Hin]]]; try done.
  - apply (large_gaps_spec (sorted codes)). rewrite Hg.
    eapply elem_of_sublist; [exact Hin|apply sublist_take].
  - destruct (5 <? length (g :: gaps))%nat; [|by apply elem_of_nil in Hin].
    by apply list_elem_of_singleton in Hin.
  - by apply list_elem_of_singleton in Hin.
Qed.

Lemma missing_required (codes : list Z) (c : Z) :
  c ∈ REQUIRED_CODES → c ∉ codes →
  ∃ missing, c ∈ missing
    ∧ check_required_codes codes = [MissingRequired missing; MissingRequiredNote].
Proof.
  intros Hreq Hnot. unfold check_required_codes.
  exists (filter (fun c => c ∉ codes) REQUIRED_CODES).
  assert (Hin : c ∈ filter (fun c => c ∉ codes) REQUIRED_CODES)
    by by apply list_elem_of_filter.
  split; [done|].
  destruct (filter _ REQUIRED_CODES); [by apply elem_of_nil in Hin|done].
Qed.

Lemma main_status (json_data : json_document) (csv_data : list csv_row) :
  (run_checks (j_errors json_data) csv_data).1 ≠ [] →
  exit_status (main (Loaded json_data) (Loaded csv_data)) = 1.
Proof.
  unfold main. destruct (run_checks _ _) as [all_errors all_warnings]. simpl.
  intros Hne. destruct (print_summary json_data); [done|].
  by destruct all_errors.
Qed.

Lemma main_summary (json_data : json_document) (csv_data : list csv_row) :
  (run_checks (j_errors json_data) csv_data).1 = [] →
  main (Loaded json_data) (Loaded csv_data)
  = match print_summary json_data with
    | Some exception => Raise exception
    | None => Return 0
    end.
Proof.
  unfold main. destruct (run_checks _ _) as [all_errors all_warnings]. simpl.
  by intros ->.
Qed.

Lemma print_summary_None (json_data : json_document) :
  print_summary json_data = None
  ↔ j_errors json_data ≠ [] ∧ j_source json_data ≠ None
    ∧ j_pages json_data ≠ None ∧ j_extraction_date json_data ≠ None.
Proof.
  unfold print_summary.
  destruct (j_errors json_data), (j_source json_data), (j_pages json_data),
    (j_extraction_date json_data); split; try done; by intros (? & ? & ? & ?).
Qed.

Lemma run_checks_nonempty (errors : list json_entry) (csv_data : list csv_row) :
  (run_checks errors csv_data).1 = [] → errors ≠ [].
Proof. by intros Hnil ->. Qed.

Lemma main_passes (json_data : json_document) (csv_data : list csv_row) :
  (run_checks (j_errors json_data) csv_data).1 = [] →
  j_source json_data ≠ None → j_pages json_data ≠ None →
  j_extraction_date json_data ≠ None →
  main (Loaded json_data) (Loaded csv_data) = Return 0.
Proof.
  intros Hnil Hs Hp Hd. rewrite main_summary by done.
  assert (print_summary json_data = None) as ->; [|done].
  apply print_summary_None. split; [|done]. by eapply run_checks_nonempty.
Qed.

(** C8. When the record set lacks code 601, the required-codes check
    reports the missing codes with 601 among them, the report is part of the
    validator's errors and the exit status is 1.  A gap is reported only when
    it is larger than 20, so neighbours five apart are never reported.  When
    the checks other than the gap check find nothing, the gap warnings have
    no part in what [main] does: it returns 0 unless [print_summary] raises,
    and [print_summary] does not raise on an artifact that has the three
    keys it prints. *)
Theorem validator_required_codes_and_gaps :
  (∀ json_data csv_data, 601 ∉ (e_code <$> j_errors json_data) →
     ∃ missing, 601 ∈ missing
       ∧ check_required_codes (e_code <$> j_errors json_data)
         = [MissingRequired missing; MissingRequiredNote]
       ∧ MissingRequired missing ∈ (run_checks (j_errors json_data) csv_data).1
       ∧ exit_status (main (Loaded json_data) (Loaded csv_data)) = 1)
  ∧ (∀ codes gap start stop,
       GapLine gap start stop ∈ check_code_ranges codes →
       20 < gap ∧ gap = stop - start)
  ∧ (∀ codes a, GapLine 5 a (a + 5) ∉ check_code_ranges codes)
  ∧ check_code_ranges [600; 605] = []
  ∧ check_code_ranges [600; 620] = []
  ∧ check_code_ranges [600; 621] = [GapsHeader; GapLine 21 600 621; GapsFooter]
  ∧ (∀ json_data csv_data, (run_checks (j_errors json_data) csv_data).1 = [] →
       main (Loaded json_data) (Loaded csv_data)
       = match print_summary json_data with
         | Some exception => Raise exception
         | None => Return 0
         end)
  ∧ (∀ json_data csv_data, (run_checks (j_errors json_data) csv_data).1 = [] →
       j_source json_data ≠ None → j_pages json_data ≠ None →
       j_extraction_date json_data ≠ None →
       main (Loaded json_data) (Loaded csv_data) = Return 0).
Proof.
  split; [|split; [|split; [|repeat split]]].
  - intros json_data csv_data Hnot.
    destruct (missing_required (e_code <$> j_errors json_data) 601)
      as (missing & Hin & Heq); [unfold REQUIRED_CODES; set_solver|done|].
    assert (Hrun : MissingRequired missing
                     ∈ (run_checks (j_errors json_data) csv_data).1).
    { unfold run_checks. simpl. rewrite Heq. set_solver. }
    exists missing. repeat split; try done.
    apply main_status. intros Hnil. rewrite Hnil in Hrun.
    by apply elem_of_nil in Hrun.
  - exact gap_line_spec.
  - intros codes a Hin. apply gap_line_spec in Hin. lia.
  - exact main_summary.
  - exact main_passes.
Qed.

Lemma validator_witness :
  (601 ∉ (e_code <$> j_errors Inputs.json_without_601))
  ∧ check_required_codes (e_code <$> j_errors Inputs.json_without_601)
    = [MissingRequired [601]; MissingRequiredNote]
  ∧ exit_status (main (Loaded Inputs.json_without_601)
                      (Loaded Inputs.csv_without_601)) = 1
  ∧ (run_checks (j_errors Inputs.json_complete) Inputs.csv_complete).1 = []
  ∧ (run_checks (j_errors Inputs.json_complete) Inputs.csv_complete).2 ≠ []
  ∧ main (Loaded Inputs.json_complete) (Loaded Inputs.csv_complete) = Return 0.
Proof.
  destruct validator_required_codes_and_gaps
    as (Hreq & _ & _ & _ & _ & _ & _ & Hpass).
  assert (Hnot : 601 ∉ (e_code <$> j_errors Inputs.json_without_601)).
  { vm_compute. intros Hin.
    repeat (apply elem_of_cons in Hin as [Hin|Hin]; [discriminate|]).
    by apply elem_of_nil in Hin. }
  split; [exact Hnot|].
  destruct (Hreq Inputs.json_without_601 Inputs.csv_without_601 Hnot)
    as (missing & _ & _ & _ & Hexit).
  split; [by vm_compute|]. split; [exact Hexit|].
  assert (Hnone : (run_checks (j_errors Inputs.json_complete)
                     Inputs.csv_complete).1 = []) by by vm_compute.
  split; [exact Hnone|]. split; [by vm_compute|].
  by apply (Hpass _ _ Hnone).
Defined.

(** ** Cross-references and the JSON artifact *)

Lemma header_records_plain content sections r :
  r ∈ header_records content sections → ∃ c n d, r = new_StataErrorCode c n d None.
Proof.
  unfold header_records. intros (i & [[c n] p] & -> & _)%elem_of_lookup_imap.
  by eexists _, _, _.
Qed.

Lemma table_records_plain content r :
  r ∈ table_records content → ∃ c n d, r = new_StataErrorCode c n d None.
Proof.
  unfold table_records. intros (m & -> & _)%list_elem_of_fmap.
  by eexists _, _, _.
Qed.

Lemma inline_records_plain content r :
  r ∈ inline_records content → ∃ c n d, r = new_StataErrorCode c n d None.
Proof.
  unfold inline_records. intros (m & -> & _)%list_elem_of_fmap.
  unfold inline_record. destruct (inline_split _). by eexists _, _, _.
Qed.

Lemma no_references_key (r : StataErrorCode) :
  references r = None → "references"%string ∉ (clean_dict (asdict r)).*1.
Proof.
  destruct r as [c n d cat refs v]. simpl. intros ->.
  unfold clean_dict, asdict. simpl.
  destruct cat; simpl; intros Hin;
    repeat (apply elem_of_cons in Hin as [Hin|Hin]; [discriminate|]);
    by apply elem_of_nil in Hin.
Qed.

(** C9. A record of the header, the table or the inline strategy has no
    references, and its entry in the JSON artifact has no ["references"]
    key; the numbered-list strategy does attach references. *)
Theorem references_only_from_numbered_list :
  (∀ content r,
     r ∈ header_strategy content ∨ r ∈ table_records content
       ∨ r ∈ inline_records content →
     references r = None
     ∧ ("references"%string ∉ (clean_dict (asdict r)).*1)
     ∧ ∀ entry, entry ∈ export_to_json [r] → "references"%string ∉ entry.*1)
  ∧ (∃ r, r ∈ numbered_list_records Inputs.numbered_only
        ∧ references r = Some [str "[U] 9 and"; str "[D] append"]
        ∧ "references"%string ∈ (clean_dict (asdict r)).*1).
Proof.
  split.
  - intros content r Hr.
    assert (Hplain : ∃ c n d, r = new_StataErrorCode c n d None).
    { destruct Hr as [Hr|[Hr|Hr]];
        eauto using header_records_plain, table_records_plain, inline_records_plain. }
    destruct Hplain as (c & n & d & ->).
    split; [done|]. split; [by apply no_references_key|].
    intros entry Hin. unfold export_to_json in Hin.
    apply list_elem_of_fmap in Hin as (r & -> & Hin).
    apply list_elem_of_singleton in Hin as ->. by apply no_references_key.
  - eexists. split; [|split].
    + apply list_elem_of_lookup. exists 0%nat. by vm_compute.
    + by vm_compute.
    + vm_compute. do 4 apply list_elem_of_further. apply list_elem_of_here.
Qed.

Lemma references_witness :
  (∃ r, header_strategy Inputs.two_headers !! 1%nat = Some r
        ∧ references r = None
        ∧ "references"%string ∉ (clean_dict (asdict r)).*1).
Proof.
  destruct references_only_from_numbered_list as [Hnone _].
  eexists. split; [by vm_compute|].
  match goal with |- references ?r = _ ∧ _ => 
    destruct (Hnone Inputs.two_headers r) as (H1 & H2 & _) end.
  - left. apply list_elem_of_lookup. exists 1%nat. by vm_compute.
  - by split.
Defined.

(** ** The inline strategy *)

Lemma split1_at (c : ascii) (pre post : text) :
  contains c pre = false → split1 c (pre ++ c :: post) = [pre; post].
Proof.
  unfold contains. induction pre as [|x pre IH]; simpl.
  - intros _. unfold is_char. by rewrite Ascii.eqb_refl.
  - intros [Hx Hpre]%orb_false_iff. rewrite Hx, IH by done. done.
Qed.

Lemma contains_app (c : ascii) (s1 s2 : text) :
  contains c (s1 ++ s2) = contains c s1 || contains c s2.
Proof. unfold contains. apply existsb_app. Qed.

Lemma contains_self (c : ascii) (s : text) : contains c (c :: s) = true.
Proof. unfold contains, is_char. simpl. by rewrite Ascii.eqb_refl. Qed.

Lemma inline_split_period_last (pre : text) :
  contains "." pre = false → (inline_split (pre ++ str ".")).2 = [].
Proof.
  intros Hpre. unfold inline_split. cbn [list_ascii_of_string].
  rewrite contains_app, contains_self, orb_true_r.
  simpl. by rewrite split1_at.
Qed.

Lemma inline_split_hyphen_last (pre : text) :
  contains "." pre = false → contains "-" pre = false →
  (inline_split (pre ++ str "-")).2 = [].
Proof.
  intros Hdot Hpre. unfold inline_split. cbn [list_ascii_of_string].
  rewrite !contains_app, Hdot, contains_self, orb_true_r.
  simpl. by rewrite split1_at.
Qed.

(** C10 (as amended). In the inline strategy, when the text after the
    split point is empty, the description of the record is its name; this
    covers a period or a hyphen in the last position.  The description is
    then empty when the name is. *)
Theorem inline_empty_description_is_name (c : Z) (rest : text) :
  (inline_split rest).2 = [] →
  description (inline_record c rest) = name (inline_record c rest)
  ∧ name (inline_record c rest) = normalize (inline_split rest).1.
Proof.
  unfold inline_record. destruct (inline_split rest) as [n d]. simpl.
  by intros ->.
Qed.

Lemma inline_empty_description_witness :
  (inline_split (str "File not found.")).2 = []
  ∧ description (inline_record 601 (str "File not found."))
    = name (inline_record 601 (str "File not found."))
  ∧ name (inline_record 601 (str "File not found.")) = str "File not found".
Proof.
  split; [by vm_compute|].
  destruct (inline_empty_description_is_name 601 (str "File not found."))
    as [Hd Hn]; [by vm_compute|].
  split; [exact Hd|]. rewrite Hn. by vm_compute.
Defined.

(** C10 (counterexample). For the text [r(1) .] the split is made on the
    period, nothing follows it and nothing precedes it: the description is
    the empty string. *)
Lemma inline_description_empty_counterexample :
  parse_error_codes_markdown (str "r(1) .")
  = [ {| code := 1; name := []; description := [];
         category := Some (str "General"); references := None;
         stata_version := str "18" |} ]
  ∧ (inline_split (str ".")).2 = []
  ∧ ¬ (∀ c rest, (inline_split rest).2 = [] →
         description (inline_record c rest) ≠ []).
Proof.
  split; [by vm_compute|]. split; [by vm_compute|].
  intros H. by apply (H 1 (str ".")).
Qed.

(** ** The matcher: soundness *)

Lemma prev_after_cons (prev : option ascii) (c : ascii) (w : text) :
  prev_after (Some c) w = prev_after prev (c :: w).
Proof.
  unfold prev_after. destruct w as [|d w]; [done|].
  change (last (c :: d :: w)) with (last (d :: w)).
  destruct (last (d :: w)) eqn:Hl; [done|]. by apply last_None in Hl.
Qed.

Lemma prev_after_app (prev : option ascii) (w1 w2 : text) :
  prev_after (prev_after prev w1) w2 = prev_after prev (w1 ++ w2).
Proof.
  revert prev. induction w1 as [|c w1 IH]; intros prev; [done|].
  simpl. by rewrite <- !prev_after_cons, IH.
Qed.

Section MatcherSound.
Context {A : Type}.
Implicit Types (k : option ascii → text → option A) (a : A).

Lemma rep_greedy_sound p lo prev s k a :
  rep_greedy p lo prev s k = Some a →
  ∃ w rest, s = w ++ rest ∧ forallb p w = true ∧ (lo <= length w)%nat
    ∧ k (prev_after prev w) rest = Some a.
Proof.
  revert lo prev. induction s as [|c s IH]; intros lo prev; simpl.
  - destruct lo; [|done]. intros Hk. exists [], []. by repeat split.
  - assert (Hstop : match lo with O => k prev (c :: s) | S _ => None end = Some a →
      ∃ w rest, c :: s = w ++ rest ∧ forallb p w = true ∧ (lo <= length w)%nat
        ∧ k (prev_after prev w) rest = Some a).
    { destruct lo; [|done]. intros Hk. exists [], (c :: s). by repeat split. }
    destruct (p c) eqn:Hc; [|done].
    destruct (rep_greedy p (pred lo) (Some c) s k) as [a'|] eqn:Hrec; [|done].
    intros [= ->]. apply IH in Hrec as (w & rest & -> & Hw & Hlo & Hk).
    exists (c :: w), rest. simpl. rewrite Hc, Hw, <- prev_after_cons.
    repeat split; [lia|done].
Qed.

Lemma rep_lazy_sound p lo prev s k a :
  rep_lazy p lo prev s k = Some a →
  ∃ w rest, s = w ++ rest ∧ forallb p w = true ∧ (lo <= length w)%nat
    ∧ k (prev_after prev w) rest = Some a.
Proof.
  revert lo prev. induction s as [|c s IH]; intros lo prev; simpl.
  - destruct lo; [|done]. destruct (k prev []) eqn:Hk; [|done].
    intros [= ->]. exists [], []. by repeat split.
  - assert (Hmore : (if p c then rep_lazy p (pred lo) (Some c) s k else None) = Some a →
      ∃ w rest, c :: s = w ++ rest ∧ forallb p w = true ∧ (lo <= length w)%nat
        ∧ k (prev_after prev w) rest = Some a).
    { destruct (p c) eqn:Hc; [|done].
      intros (w & rest & -> & Hw & Hlo & Hk)%IH.
      exists (c :: w), rest. simpl. rewrite Hc, Hw, <- prev_after_cons.
      repeat split; [lia|done]. }
    destruct lo; [|done].
    destruct (k prev (c :: s)) eqn:Hk; [|done].
    intros [= ->]. exists [], (c :: s). by repeat split.
Qed.

End MatcherSound.

Lemma mt_sound {A} (r : regex) prev s g
    (k : option ascii → text → groups → option A) (a : A) :
  mt r prev s g k = Some a →
  ∃ w rest g', s = w ++ rest ∧ matches r prev w rest g g'
    ∧ k (prev_after prev w) rest g' = Some a.
Proof.
  revert prev s g k.
  induction r as [|p| | | |r1 IH1 r2 IH2|r1 IH1 r2 IH2|greedy lo p|r IH|i r IH];
    intros prev s g k; simpl.
  - intros Hk. exists [], s, g. repeat split; [constructor|done].
  - destruct s as [|c s]; [done|]. destruct (p c) eqn:Hc; [|done].
    intros Hk. exists [c], s, g. repeat split; [by constructor|done].
  - destruct prev; [done|]. intros Hk. exists [], s, g.
    repeat split; [constructor|done].
  - intros Hk. exists [], s, g. split; [done|]. split.
    + constructor. intros c ->. simpl in Hk.
      destruct (is_char newline c) eqn:Hc; [|done].
      symmetry. by apply Ascii.eqb_eq.
    + destruct prev as [c|]; [|done]. by destruct (is_char newline c).
  - intros Hk. exists [], s, g. split; [done|]. split.
    + constructor. destruct s as [|c s]; [done|]. intros ? [= <-].
      simpl in Hk. destruct (is_char newline c) eqn:Hc; [|done].
      symmetry. by apply Ascii.eqb_eq.
    + destruct s as [|c s]; [done|]. by destruct (is_char newline c).
  - intros (w1 & rest1 & g1 & -> & Hm1 & Hk)%IH1.
    apply IH2 in Hk as (w2 & rest & g2 & -> & Hm2 & Hk).
    exists (w1 ++ w2), rest, g2. rewrite <- prev_after_app, app_assoc.
    repeat split; [|done]. by econstructor.
  - destruct (mt r1 prev s g k) as [a'|] eqn:H1.
    + intros [= ->]. apply IH1 in H1 as (w & rest & g' & -> & Hm & Hk).
      exists w, rest, g'. repeat split; [by apply M_Alt_l|done].
    + intros (w & rest & g' & -> & Hm & Hk)%IH2.
      exists w, rest, g'. repeat split; [by apply M_Alt_r|done].
  - destruct greedy.
    + intros (w & rest & -> & Hw & Hlo & Hk)%rep_greedy_sound.
      exists w, rest, g. repeat split; [by constructor|done].
    + intros (w & rest & -> & Hw & Hlo & Hk)%rep_lazy_sound.
      exists w, rest, g. repeat split; [by constructor|done].
  - destruct (mt r prev s g k) as [a'|] eqn:H1.
    + intros [= ->]. apply IH in H1 as (w & rest & g' & -> & Hm & Hk).
      exists w, rest, g'. repeat split; [by apply M_Opt_some|done].
    + intros Hk. exists [], s, g. repeat split; [apply M_Opt_none|done].
  - intros (w & rest & g' & -> & Hm & Hk)%IH.
    exists w, rest, (<[i := w]> g'). repeat split; [by constructor|].
    rewrite length_app in Hk.
    replace (length w + length rest - length rest)%nat with (length w) in Hk by lia.
    by rewrite take_app_length in Hk.
Qed.

Lemma match_at_sound (r : regex) prev s n g :
  match_at r prev s = Some (n, g) →
  ∃ w rest, s = w ++ rest ∧ n = length w ∧ matches r prev w rest ∅ g.
Proof.
  unfold match_at. intros (w & rest & g' & -> & Hm & [= <- <-])%mt_sound.
  exists w, rest. repeat split; [|done]. rewrite length_app. lia.
Qed.

Lemma scan_sound (r : regex) (m : rmatch) skip prev pos s :
  m ∈ scan r skip prev pos s →
  ∃ prev' w rest, matches r prev' w rest ∅ (m_groups m).
Proof.
  revert skip prev pos. induction s as [|c s IH]; intros skip prev pos; simpl.
  - destruct skip; [|by intros ?%elem_of_nil].
    destruct (match_at r prev []) as [[n g]|] eqn:Hm; [|by intros ?%elem_of_nil].
    intros ->%list_elem_of_singleton. simpl.
    apply match_at_sound in Hm as (w & rest & _ & _ & Hm). eauto.
  - destruct skip; [|apply IH].
    destruct (match_at r prev (c :: s)) as [[n g]|] eqn:Hm; [|apply IH].
    intros [->|Hin]%elem_of_cons; [|by eapply IH].
    apply match_at_sound in Hm as (w & rest & _ & _ & Hm). simpl. eauto.
Qed.

(** ** Greedy repetition takes the longest run it can *)

Lemma run_length_le p (s : text) : (run_length p s <= length s)%nat.
Proof. induction s as [|c s IH]; simpl; [done|]. destruct (p c); simpl; lia. Qed.

Lemma run_length_take p (s : text) : forallb p (take (run_length p s) s) = true.
Proof.
  induction s as [|c s IH]; simpl; [done|].
  destruct (p c) eqn:Hc; simpl; [by rewrite Hc|done].
Qed.

Lemma run_length_drop p (s : text) c :
  head (drop (run_length p s) s) = Some c → p c = false.
Proof.
  induction s as [|d s IH]; simpl; [done|].
  destruct (p d) eqn:Hd; simpl; [done|]. by intros [= <-].
Qed.

Section Greedy.
Context {A : Type}.
Implicit Types (k : option ascii → text → option A) (a : A).

Lemma rep_greedy_first p lo prev s k a :
  (lo <= run_length p s)%nat →
  k (prev_after prev (take (run_length p s) s)) (drop (run_length p s) s) = Some a →
  rep_greedy p lo prev s k = Some a.
Proof.
  revert lo prev. induction s as [|c s IH]; intros lo prev; simpl.
  - intros Hlo. by replace lo with 0%nat by lia.
  - destruct (p c) eqn:Hc; simpl.
    + intros Hlo Hk. rewrite <- prev_after_cons in Hk.
      rewrite (IH (pred lo) (Some c)); [done|lia|done].
    + intros Hlo. by replace lo with 0%nat by lia.
Qed.

Lemma rep_greedy_short p lo prev s k :
  (run_length p s < lo)%nat → rep_greedy p lo prev s k = None.
Proof.
  revert lo prev. induction s as [|c s IH]; intros lo prev; simpl.
  - intros Hlo. destruct lo; [lia|done].
  - destruct (p c) eqn:Hc; simpl; intros Hlo; (destruct lo; [lia|]); [|done].
    rewrite IH; [done|simpl; lia].
Qed.

Lemma rep_greedy_stop p lo prev s k :
  (∀ prev' c s', p c = true → k prev' (c :: s') = None) →
  rep_greedy p lo prev s k
  = if (lo <=? run_length p s)%nat
    then k (prev_after prev (take (run_length p s) s)) (drop (run_length p s) s)
    else None.
Proof.
  intros Hstop. revert lo prev.
  induction s as [|c s IH]; intros lo prev; simpl.
  - by destruct lo.
  - destruct (p c) eqn:Hc; simpl; [|by destruct lo].
    rewrite IH, <- prev_after_cons.
    destruct lo as [|lo]; simpl.
    + destruct (k _ (drop _ s)); [done|]. by apply Hstop.
    + destruct (lo <=? run_length p s)%nat; [|done]. by destruct (k _ (drop _ s)).
Qed.

End Greedy.

(** ** [re.sub(r'\s+', ' ', s)] collapses the whitespace runs *)

Lemma match_at_ws prev (s : text) :
  match_at ws_pattern prev s
  = if (1 <=? run_length is_space s)%nat
    then Some (run_length is_space s, ∅) else None.
Proof.
  unfold match_at, ws_pattern. cbn [mt].
  destruct (Nat.leb_spec 1 (run_length is_space s)) as [Hle|Hlt].
  - apply rep_greedy_first; [done|]. do 2 f_equal.
    rewrite length_drop. pose proof (run_length_le is_space s). lia.
  - apply rep_greedy_short. lia.
Qed.

Lemma sub_scan_ws prev (s : text) :
  sub_scan ws_pattern (fun _ => str " ") 0 prev s = collapse_from false s
  ∧ sub_scan ws_pattern (fun _ => str " ") (run_length is_space s) prev s
    = collapse_from true s.
Proof.
  revert prev. induction s as [|c s IH]; intros prev.
  - cbn [sub_scan run_length]. by rewrite match_at_ws.
  - destruct (IH (Some c)) as [IH0 IH1].
    cbn [sub_scan run_length collapse_from]. rewrite match_at_ws.
    cbn [run_length]. destruct (is_space c) eqn:Hc.
    + cbn [Nat.leb]. by rewrite IH1.
    + cbn [Nat.leb]. by rewrite IH0.
Qed.

Lemma sub_ws (s : text) : sub ws_pattern (fun _ => str " ") s = collapse_ws s.
Proof. apply sub_scan_ws. Qed.

Lemma normalize_collapse (s : text) : normalize s = strip (collapse_ws s).
Proof. unfold normalize. by rewrite sub_ws. Qed.

(** ** Stripping *)

Lemma last_head_rev (s : text) : last s = head (rev s).
Proof.
  induction s as [|c s IH] using rev_ind; [done|].
  by rewrite last_snoc, rev_unit.
Qed.

Lemma forallb_rev (p : ascii → bool) (s : text) : forallb p (rev s) = forallb p s.
Proof.
  induction s as [|c s IH]; [done|].
  simpl. rewrite forallb_app, IH. simpl. by rewrite andb_true_r, andb_comm.
Qed.

Lemma lstrip_by_split p (s : text) :
  ∃ pre, s = pre ++ lstrip_by p s ∧ forallb p pre = true.
Proof.
  induction s as [|c s (pre & IH & Hpre)]; simpl; [by exists []|].
  destruct (p c) eqn:Hc; [|by exists []].
  exists (c :: pre). simpl. rewrite Hc, Hpre. split; [by f_equal|done].
Qed.

Lemma lstrip_by_head p (s : text) c : head (lstrip_by p s) = Some c → p c = false.
Proof.
  induction s as [|d s IH]; simpl; [done|].
  destruct (p d) eqn:Hd; [done|]. by intros [= <-].
Qed.

Lemma lstrip_by_id p (s : text) :
  (∀ c, head s = Some c → p c = false) → lstrip_by p s = s.
Proof. destruct s as [|c s]; simpl; [done|]. intros H. by rewrite H. Qed.

Lemma rstrip_by_split p (s : text) :
  ∃ suf, s = rstrip_by p s ++ suf ∧ forallb p suf = true.
Proof.
  unfold rstrip_by. destruct (lstrip_by_split p (rev s)) as (pre & Heq & Hpre).
  exists (rev pre). split.
  - rewrite <- rev_app_distr, <- Heq. by rewrite rev_involutive.
  - by rewrite forallb_rev.
Qed.

Lemma rstrip_by_last p (s : text) c : last (rstrip_by p s) = Some c → p c = false.
Proof.
  unfold rstrip_by. rewrite last_head_rev, rev_involutive. apply lstrip_by_head.
Qed.

Lemma rstrip_by_id p (s : text) :
  (∀ c, last s = Some c → p c = false) → rstrip_by p s = s.
Proof.
  intros H. unfold rstrip_by. rewrite lstrip_by_id; [apply rev_involutive|].
  intros c Hc. apply H. by rewrite last_head_rev.
Qed.

Lemma rstrip_by_head p (s : text) c :
  head (rstrip_by p s) = Some c → head s = Some c.
Proof.
  destruct (rstrip_by_split p s) as (suf & Heq & _).
  rewrite Heq at 2. by destruct (rstrip_by p s).
Qed.

Lemma strip_trimmed (s : text) : trimmed (strip s).
Proof.
  unfold strip. split; intros c Hc.
  - apply rstrip_by_head in Hc. by apply lstrip_by_head in Hc.
  - by apply rstrip_by_last in Hc.
Qed.

Lemma strip_id (s : text) : trimmed s → strip s = s.
Proof.
  intros [Hh Hl]. unfold strip. rewrite lstrip_by_id by done.
  by apply rstrip_by_id.
Qed.

Lemma lstrip_by_nil p (s : text) : lstrip_by p s = [] ↔ forallb p s = true.
Proof.
  induction s as [|c s IH]; simpl; [done|].
  destruct (p c); [exact IH|done].
Qed.

Lemma lstrip_by_all p (s : text) :
  forallb p (lstrip_by p s) = true ↔ forallb p s = true.
Proof.
  induction s as [|c s IH]; simpl; [done|].
  destruct (p c) eqn:Hc; [exact IH|]. simpl. by rewrite Hc.
Qed.

Lemma rstrip_by_nil p (s : text) : rstrip_by p s = [] ↔ forallb p s = true.
Proof.
  unfold rstrip_by. rewrite <- (forallb_rev p s), <- lstrip_by_nil.
  split; [|by intros ->]. intros H. apply (f_equal (@rev ascii)) in H.
  by rewrite rev_involutive in H.
Qed.

Lemma strip_nil (s : text) : strip s = [] ↔ blank s = true.
Proof. unfold strip, blank. by rewrite rstrip_by_nil, lstrip_by_all. Qed.

(** ** Single-spaced text *)

Lemma single_spaced_unfold (c : ascii) (s : text) :
  single_spaced (c :: s)
  = (negb (is_space c) || is_char " " c)
    && match s with
       | d :: _ => negb (is_space c && is_space d)
       | [] => true
       end
    && single_spaced s.
Proof. done. Qed.

Lemma single_spaced_cons (c : ascii) (s : text) :
  single_spaced (c :: s) = true → single_spaced s = true.
Proof. simpl. by intros [_ ?]%andb_true_iff. Qed.

Lemma single_spaced_app (a b : text) :
  single_spaced (a ++ b) = true → single_spaced a = true ∧ single_spaced b = true.
Proof.
  induction a as [|c a IH]; [done|].
  intros H. pose proof (single_spaced_cons _ _ H) as [Ha Hb]%IH.
  split; [|done]. simpl in *. rewrite Ha.
  apply andb_true_iff in H as [H _]. apply andb_true_iff in H as [H1 H2].
  rewrite H1. destruct a; [done|]. simpl in H2. by rewrite H2.
Qed.

Lemma single_spaced_word (w s : text) :
  forallb (neg is_space) w = true → single_spaced (w ++ s) = single_spaced s.
Proof.
  unfold neg. induction w as [|c w IH]; [done|].
  simpl. intros [Hc Hw]%andb_true_iff. rewrite IH by done.
  apply negb_true_iff in Hc. rewrite Hc. simpl. by destruct (w ++ s).
Qed.

Lemma single_spaced_space (c : ascii) (s : text) :
  single_spaced (c :: s) = true → is_space c = true → c = " "%char.
Proof.
  simpl. intros [[H _]%andb_true_iff _]%andb_true_iff Hc.
  rewrite Hc in H. simpl in H. by apply Ascii.eqb_eq in H.
Qed.

Lemma single_spaced_next (c d : ascii) (s : text) :
  single_spaced (c :: d :: s) = true → is_space c = true → is_space d = false.
Proof.
  simpl. intros [[_ H]%andb_true_iff _]%andb_true_iff Hc.
  rewrite Hc in H. by destruct (is_space d).
Qed.

Lemma single_spaced_same_head (c : ascii) (s t : text) :
  head t = head s → single_spaced t = true →
  single_spaced (c :: s) = true → single_spaced (c :: t) = true.
Proof.
  intros Hh Ht. simpl. rewrite Ht.
  intros [H _]%andb_true_iff. rewrite andb_true_r.
  destruct s, t; simpl in *; try done.
  by injection Hh as ->.
Qed.

(** ** Collapsing *)

Lemma collapse_run_head (s : text) c :
  head (collapse_from true s) = Some c → is_space c = false.
Proof.
  induction s as [|d s IH]; simpl; [done|].
  destruct (is_space d) eqn:Hd; [done|]. by intros [= <-].
Qed.

Lemma collapse_single_spaced (b : bool) (s : text) :
  single_spaced (collapse_from b s) = true.
Proof.
  revert b. induction s as [|c s IH]; intros b; [done|].
  cbn [collapse_from]. destruct (is_space c) eqn:Hc.
  - destruct b; [done|].
    pose proof (collapse_run_head s) as Hh. specialize (IH true).
    destruct (collapse_from true s) as [|d t]; [done|].
    rewrite single_spaced_unfold, IH, (Hh d) by done. done.
  - specialize (IH false). simpl. rewrite Hc, IH. simpl.
    by destruct (collapse_from false s).
Qed.

Lemma collapse_run_id (s : text) :
  (∀ c, head s = Some c → is_space c = false) →
  collapse_from true s = collapse_from false s.
Proof. destruct s as [|c s]; [done|]. simpl. intros H. by rewrite H. Qed.

Lemma collapse_id (s : text) : single_spaced s = true → collapse_ws s = s.
Proof.
  unfold collapse_ws. induction s as [|c s IH]; [done|].
  intros Hs. pose proof (single_spaced_cons _ _ Hs) as Hs'.
  cbn [collapse_from]. destruct (is_space c) eqn:Hc.
  - rewrite (single_spaced_space _ _ Hs Hc). f_equal.
    rewrite collapse_run_id; [by apply IH|].
    destruct s as [|d s]; [done|]. intros ? [= <-].
    by apply (single_spaced_next c d s).
  - f_equal. by apply IH.
Qed.

Lemma collapse_head (s : text) c :
  is_space c = false → head s = Some c → head (collapse_ws s) = Some c.
Proof.
  destruct s as [|d s]; [done|]. intros Hc [= ->].
  unfold collapse_ws. simpl. by rewrite Hc.
Qed.

Lemma collapse_snoc (b : bool) (s : text) c :
  is_space c = false → collapse_from b (s ++ [c]) = collapse_from b s ++ [c].
Proof.
  intros Hc. revert b. induction s as [|d s IH]; intros b; simpl.
  - by rewrite Hc.
  - destruct (is_space d), b; by rewrite IH.
Qed.

Lemma collapse_trimmed (s : text) : trimmed s → trimmed (collapse_ws s).
Proof.
  intros [Hh Hl]. split.
  - destruct s as [|d s]; [done|]. unfold collapse_ws. simpl.
    rewrite (Hh d) by done. intros c [= <-]. by apply Hh.
  - destruct s as [|d s _] using rev_ind; [done|].
    rewrite last_snoc in Hl. unfold collapse_ws.
    rewrite collapse_snoc by auto. rewrite last_snoc. intros c [= <-]. auto.
Qed.

Lemma collapse_nil (s : text) : collapse_ws s = [] → s = [].
Proof.
  destruct s as [|c s]; [done|]. unfold collapse_ws. simpl.
  by destruct (is_space c).
Qed.

(** ** Normalisation on text that is already clean *)

Lemma normalize_clean (s : text) :
  single_spaced s = true → trimmed s → normalize s = s.
Proof.
  intros Hs Ht. rewrite normalize_collapse, collapse_id by done.
  by apply strip_id.
Qed.

Lemma normalize_prefix (s : text) :
  single_spaced s = true → (∀ c, head s = Some c → is_space c = false) →
  normalize s = rstrip_by is_space s.
Proof.
  intros Hs Hh. rewrite normalize_collapse, collapse_id by done.
  unfold strip. by rewrite lstrip_by_id.
Qed.

Lemma normalize_nonempty (s : text) c :
  head s = Some c → is_space c = false → normalize s ≠ [].
Proof.
  intros Hh Hc. rewrite normalize_collapse.
  pose proof (collapse_head s c Hc Hh) as Hh'.
  destruct (collapse_ws s) as [|d t]; [done|]. injection Hh' as ->.
  unfold strip. simpl. rewrite Hc. unfold rstrip_by.
  intros Hnil. apply (f_equal (@rev ascii)) in Hnil.
  rewrite rev_involutive in Hnil. simpl in Hnil.
  destruct (lstrip_by_split is_space (rev t ++ [c])) as (pre & Heq & Hpre).
  rewrite Hnil, app_nil_r in Heq. subst pre.
  rewrite forallb_app in Hpre. simpl in Hpre. rewrite Hc in Hpre.
  by rewrite andb_false_r in Hpre.
Qed.

(** ** Descriptions of the header strategy *)

Lemma rev_head_in (cur : text) (d : ascii) (t : text) :
  forallb (neg is_space) cur = true → rev cur = d :: t → is_space d = false.
Proof.
  intros Hcur Hrev. rewrite <- forallb_rev, Hrev in Hcur. simpl in Hcur.
  apply andb_true_iff in Hcur as [Hd _]. by apply negb_true_iff in Hd.
Qed.

Lemma split_ws_from_head (cur s w : text) (ws : list text) :
  forallb (neg is_space) cur = true →
  split_ws_from cur s = w :: ws →
  ∃ c, head w = Some c ∧ is_space c = false.
Proof.
  revert cur. induction s as [|c s IH]; intros cur Hcur; cbn [split_ws_from].
  - destruct cur as [|c0 cur]; [intros ?; discriminate|]. intros [= <- _].
    destruct (rev (c0 :: cur)) as [|d t] eqn:Hrev.
    { by apply (f_equal length) in Hrev; rewrite length_rev in Hrev. }
    exists d. change (rev cur ++ [c0]) with (rev (c0 :: cur)). rewrite Hrev.
    split; [done|]. by eapply rev_head_in.
  - destruct (is_space c) eqn:Hc.
    + destruct cur as [|c0 cur]; [by apply IH|]. intros [= <- _].
      destruct (rev (c0 :: cur)) as [|d t] eqn:Hrev.
      { by apply (f_equal length) in Hrev; rewrite length_rev in Hrev. }
      exists d. change (rev cur ++ [c0]) with (rev (c0 :: cur)). rewrite Hrev.
      split; [done|]. by eapply rev_head_in.
    + apply IH. simpl. unfold neg at 1. by rewrite Hc.
Qed.

Lemma join_split_head (s : text) :
  join (str " ") (split_ws s) = []
  ∨ ∃ c, head (join (str " ") (split_ws s)) = Some c ∧ is_space c = false.
Proof.
  unfold split_ws. destruct (split_ws_from [] s) as [|w ws] eqn:Hsplit; [by left|].
  right. apply split_ws_from_head in Hsplit as (c & Hw & Hc); [|done].
  exists c. split; [|done]. destruct w as [|d w]; [done|].
  simpl. by destruct ws.
Qed.

Lemma header_description_head content start_pos end_pos :
  header_description content start_pos end_pos = []
  ∨ ∃ c, head (header_description content start_pos end_pos) = Some c
         ∧ is_space c = false.
Proof. apply join_split_head. Qed.

Lemma normalize_sentinel : normalize sentinel = sentinel.
Proof. by vm_compute. Qed.

(** C1 (counterexample). A table row whose third cell is blank gives a
    record with the empty description. *)
Lemma table_description_empty_counterexample :
  parse_error_codes_markdown (str "|1|a| |")
  = [ {| code := 1; name := str "a"; description := [];
         category := Some (str "General"); references := None;
         stata_version := str "18" |} ]
  ∧ ¬ (∀ content r, r ∈ parse_error_codes_markdown content → description r ≠ []).
Proof.
  assert (Heq : parse_error_codes_markdown (str "|1|a| |")
    = [ {| code := 1; name := str "a"; description := [];
           category := Some (str "General"); references := None;
           stata_version := str "18" |} ]) by by vm_compute.
  split; [exact Heq|].
  intros H. eapply (H (str "|1|a| |")); [rewrite Heq; apply list_elem_of_here|done].
Qed.

(** ** The name of a numbered entry *)

Lemma not_dot_false (d : ascii) : not_dot d = false → d = "."%char.
Proof.
  unfold not_dot, neg. intros H%negb_false_iff. symmetry. by apply Ascii.eqb_eq.
Qed.

Lemma sentence_match (c : text) :
  re_match sentence_pattern c =
    if (1 <=? run_length not_dot c)%nat then
      match drop (run_length not_dot c) c with
      | _ :: _ =>
          Some {| m_start := 0; m_end := S (run_length not_dot c);
                  m_groups := {[ 1%nat := take (S (run_length not_dot c)) c ]} |}
      | [] => None
      end
    else None.
Proof.
  unfold re_match, match_at, sentence_pattern.
  cbn [mt lit list_ascii_of_string string_of_list_ascii].
  rewrite rep_greedy_stop.
  2:{ intros prev' d s' Hd. unfold not_dot, neg in Hd.
      apply negb_true_iff in Hd. by rewrite Hd. }
  destruct (1 <=? run_length not_dot c)%nat; [|done].
  pose proof (run_length_drop not_dot c) as Hhead.
  pose proof (run_length_le not_dot c) as Hle.
  pose proof (length_drop c (run_length not_dot c)) as Hlen.
  destruct (drop (run_length not_dot c) c) as [|d post]; [done|].
  rewrite (not_dot_false d) by by apply Hhead.
  unfold is_char. rewrite Ascii.eqb_refl. simpl in Hlen.
  replace (length c - length post)%nat with (S (run_length not_dot c)) by lia.
  by rewrite insert_empty.
Qed.

Lemma contains_dot_run (c : text) :
  contains "." c
  = match drop (run_length not_dot c) c with [] => false | _ :: _ => true end.
Proof.
  unfold contains. induction c as [|x c IH]; [done|].
  simpl. unfold not_dot, neg. destruct (is_char "." x); simpl; [done|apply IH].
Qed.

Lemma contains_dot_take_run (c : text) :
  contains "." (take (run_length not_dot c) c) = false.
Proof.
  unfold contains. induction c as [|x c IH]; [done|].
  simpl. unfold not_dot at 1, neg. destruct (is_char "." x) eqn:Hx; simpl; [done|].
  by rewrite Hx.
Qed.

Lemma split1_absent (x : ascii) (s : text) : contains x s = false → split1 x s = [s].
Proof.
  unfold contains. induction s as [|c s IH]; [done|].
  simpl. intros [Hc Hs]%orb_false_iff. by rewrite Hc, IH.
Qed.

Lemma single_spaced_no_newline (s : text) :
  single_spaced s = true → contains newline s = false.
Proof.
  unfold contains. induction s as [|c s IH]; [done|].
  intros Hs. simpl. rewrite IH by by eapply single_spaced_cons.
  rewrite orb_false_r. destruct (is_char newline c) eqn:Hc; [|done].
  apply Ascii.eqb_eq in Hc. subst c.
  by apply single_spaced_space in Hs.
Qed.

Lemma trimmed_prefix (a b : text) c :
  trimmed (a ++ b) → last a = Some c → is_space c = false → a ≠ [] → trimmed a.
Proof.
  intros [Hh _] Hl Hc Ha. split.
  - intros d Hd. apply Hh. by destruct a.
  - intros d Hd. congruence.
Qed.

Lemma name_rule_short (c : text) : (length c <= 100)%nat → name_rule c = c.
Proof. intros H. unfold name_rule. by rewrite (proj2 (Nat.leb_le _ _)). Qed.

Lemma name_rule_long (c : text) (first : ascii) :
  head c = Some first → (100 < length c)%nat →
  name_rule c
  = if negb (is_char "." first) && contains "." c
    then upto_first_period c else rstrip_by is_space (take 80 c).
Proof.
  intros Hh Hlong. unfold name_rule. rewrite (proj2 (Nat.leb_gt _ _)) by done.
  destruct c as [|x c]; [done|]. by injection Hh as ->.
Qed.

Lemma numbered_name_rule (line : text) :
  trimmed line → normalize (numbered_name line) = name_rule (collapse_ws line).
Proof.
  intros Hline. unfold numbered_name. rewrite sub_ws.
  pose proof (collapse_single_spaced false line) as Hs.
  pose proof (collapse_trimmed line Hline) as Ht.
  fold (collapse_ws line) in Hs. revert Hs Ht.
  generalize (collapse_ws line) as c. intros c Hs Ht.
  rewrite split1_absent by by apply single_spaced_no_newline.
  unfold item. simpl. rewrite strip_id by done.
  destruct (Nat.ltb_spec 100 (length c)) as [Hlong|Hshort].
  2:{ rewrite name_rule_short by done. by apply normalize_clean. }
  assert (Hc : ∃ first, head c = Some first).
  { destruct c; [simpl in Hlong; lia|eauto]. }
  destruct Hc as [first Hc].
  rewrite (name_rule_long c first) by done.
  assert (Hfirst : is_space first = false) by by apply (proj1 Ht).
  assert (Htake80 : normalize (take 80 c) = rstrip_by is_space (take 80 c)).
  { apply normalize_prefix.
    - rewrite <- (take_drop 80 c) in Hs. by apply single_spaced_app in Hs as [? _].
    - intros d Hd. destruct c; [done|]. simpl in *. congruence. }
  rewrite sentence_match, contains_dot_run.
  assert (Hrun : (1 <=? run_length not_dot c)%nat = negb (is_char "." first)).
  { destruct c as [|x c]; [done|]. injection Hc as ->.
    simpl. unfold not_dot, neg. by destruct (is_char "." first). }
  rewrite Hrun. destruct (is_char "." first) eqn:Hdot; simpl; [done|].
  pose proof (run_length_drop not_dot c) as Hhead.
  pose proof (contains_dot_take_run c) as Hpre.
  pose proof (take_drop (run_length not_dot c) c) as Hsplit.
  assert (Hpos : (1 <= run_length not_dot c)%nat).
  { apply Nat.leb_le. by rewrite Hrun. }
  destruct (drop (run_length not_dot c) c) as [|d post] eqn:Hdrop; [done|].
  assert (d = "."%char) as -> by by apply not_dot_false, Hhead.
  unfold group. simpl. rewrite lookup_singleton_eq. simpl.
  unfold upto_first_period. rewrite <- Hsplit at 3.
  rewrite split1_at by done. unfold item. simpl.
  assert (Htk : take (S (run_length not_dot c)) c
                = take (run_length not_dot c) c ++ str ".").
  { apply take_S_r.
    rewrite <- (Nat.add_0_r (run_length not_dot c)), <- lookup_drop.
    by rewrite Hdrop. }
  rewrite Htk.
  assert (Hss : single_spaced (take (run_length not_dot c) c ++ str ".") = true).
  { rewrite <- Htk. rewrite <- (take_drop (S (run_length not_dot c)) c) in Hs.
    by apply single_spaced_app in Hs as [? _]. }
  assert (Htr : trimmed (take (run_length not_dot c) c ++ str ".")).
  { split.
    - intros x Hx. apply (proj1 Ht).
      destruct c as [|y c]; [done|].
      destruct (run_length not_dot (y :: c)); [lia|]. exact Hx.
    - cbn [list_ascii_of_string]. rewrite last_snoc. by intros ? [= <-]. }
  rewrite strip_id by done. by apply normalize_clean.
Qed.

Lemma numbered_list_records_name (content : text) (i : nat) (r : StataErrorCode) :
  numbered_list_records content !! i = Some r →
  ∃ m, finditer numbered_list_pattern content !! i = Some m
       ∧ name r = name_rule (collapse_ws (strip (group m 2))).
Proof.
  unfold numbered_list_records. rewrite list_lookup_imap.
  destruct (finditer numbered_list_pattern content !! i) as [m|]; [|done].
  simpl. intros [= <-]. exists m. split; [done|].
  simpl. apply numbered_name_rule, strip_trimmed.
Qed.

Lemma name_rule_sentence (c pre post : text) :
  (100 < length c)%nat → c = pre ++ "."%char :: post → pre ≠ [] →
  contains "." pre = false → name_rule c = pre ++ str ".".
Proof.
  intros Hlong -> Hpre Hdot.
  destruct pre as [|first pre]; [done|].
  rewrite (name_rule_long _ first) by done.
  rewrite contains_app, contains_self, orb_true_r, andb_true_r.
  assert (Hf : is_char "." first = false).
  { unfold contains in Hdot. simpl in Hdot.
    by apply orb_false_iff in Hdot as [? _]. }
  rewrite Hf. simpl. unfold upto_first_period.
  change (first :: pre ++ "."%char :: post) with ((first :: pre) ++ "."%char :: post).
  by rewrite split1_at.
Qed.

Lemma name_rule_no_period (c : text) :
  (100 < length c)%nat → contains "." c = false →
  name_rule c = rstrip_by is_space (take 80 c).
Proof.
  intros Hlong Hdot. destruct c as [|first rest]; [simpl in Hlong; lia|].
  rewrite (name_rule_long _ first) by done. by rewrite Hdot, andb_false_r.
Qed.

Lemma name_rule_leading_period (c post : text) :
  (100 < length c)%nat → c = "."%char :: post →
  name_rule c = rstrip_by is_space (take 80 c).
Proof. intros Hlong ->. by rewrite (name_rule_long _ ".") by done. Qed.

(** C7 (as amended). The name of a numbered entry is read off its first
    line, stripped and with whitespace collapsed: a line of at most 100
    characters is the name; a longer line that has a period after at least
    one other character gives the text up to and including the first period;
    a longer line with no period, or with a period as its first character,
    gives its first 80 characters without trailing whitespace. *)
Theorem numbered_name_derivation :
  (∀ content i r, numbered_list_records content !! i = Some r →
     ∃ m, finditer numbered_list_pattern content !! i = Some m
          ∧ name r = name_rule (collapse_ws (strip (group m 2))))
  ∧ (∀ c : text, (length c <= 100)%nat → name_rule c = c)
  ∧ (∀ c pre post : text, (100 < length c)%nat → c = pre ++ "."%char :: post →
       pre ≠ [] → contains "." pre = false → name_rule c = pre ++ str ".")
  ∧ (∀ c : text, (100 < length c)%nat → contains "." c = false →
       name_rule c = rstrip_by is_space (take 80 c))
  ∧ (∀ c post : text, (100 < length c)%nat → c = "."%char :: post →
       name_rule c = rstrip_by is_space (take 80 c)).
Proof.
  split; [exact numbered_list_records_name|].
  split; [exact name_rule_short|].
  split; [exact name_rule_sentence|].
  split; [exact name_rule_no_period|exact name_rule_leading_period].
Qed.

Lemma numbered_name_witness :
  (∃ r, numbered_list_records Inputs.numbered_only !! 0%nat = Some r
        ∧ name r = str "You pressed Break; see [U] 9 and [D] append.")
  ∧ name_rule (str "op. sys. refuses to start new process")
    = str "op. sys. refuses to start new process"
  ∧ name_rule (replicate 50 "a"%char ++ str "." ++ replicate 60 "b"%char)
    = replicate 50 "a"%char ++ str "."
  ∧ name_rule Inputs.long_line = replicate 79 "a"%char
  ∧ name_rule Inputs.dotted_line = take 80 Inputs.dotted_line.
Proof.
  destruct numbered_name_derivation as (Hrec & Hshort & Hsent & Hnone & Hlead).
  split; [|split; [|split; [|split]]].
  - eexists. split; [by vm_compute|].
    edestruct (Hrec Inputs.numbered_only 0%nat) as (m & Hm & Hname);
      [by vm_compute|].
    rewrite Hname. vm_compute in Hm. injection Hm as <-. by vm_compute.
  - apply Hshort. vm_compute. lia.
  - apply (Hsent _ (replicate 50 "a"%char) (replicate 60 "b"%char));
      [vm_compute; lia|done|done|by vm_compute].
  - rewrite Hnone; [by vm_compute|vm_compute; lia|by vm_compute].
  - rewrite (Hlead _ (replicate 110 "a"%char)); [by vm_compute|vm_compute; lia|done].
Defined.

(** C7 (counterexample). A first line of 110 characters without a period
    whose 80th character is a space gives a name of 79 characters, not the
    first 80; a line of 111 characters that begins with a period gives its
    first 80 characters although it has a period. *)
Lemma numbered_name_counterexample :
  name <$> parse_error_codes_markdown (str "1. " ++ Inputs.long_line)
  = [replicate 79 "a"%char]
  ∧ length Inputs.long_line = 110%nat
  ∧ contains "." Inputs.long_line = false
  ∧ take 80 Inputs.long_line = replicate 79 "a"%char ++ str " "
  ∧ name <$> parse_error_codes_markdown (str "1. " ++ Inputs.dotted_line)
    = [take 80 Inputs.dotted_line]
  ∧ contains "." Inputs.dotted_line = true.
Proof. repeat split; by vm_compute. Qed.

(** ** Cross-references *)

Lemma word_not_space (c : ascii) : is_word c = true → is_space c = false.
Proof. destruct c as [[] [] [] [] [] [] [] []]; by vm_compute. Qed.

Lemma upper_not_space (c : ascii) : is_upper c = true → is_space c = false.
Proof. destruct c as [[] [] [] [] [] [] [] []]; by vm_compute. Qed.

Lemma forallb_not_space (p : ascii → bool) (w : text) :
  (∀ c, p c = true → is_space c = false) →
  forallb p w = true → forallb (neg is_space) w = true.
Proof.
  intros Hp. induction w as [|c w IH]; [done|].
  simpl. intros [Hc Hw]%andb_true_iff. unfold neg at 1.
  by rewrite (Hp c Hc), IH.
Qed.

Lemma add_reference_loop (refs : list (text * text)) (acc : list text)
    (seen : gset text) :
  (fold_left add_reference refs (acc, seen)).1
  = acc ++ filter (fun k => k ∉ seen)
             (keep_first (fun k : text => k) ((fun m => ref_key m.1 m.2) <$> refs)).
Proof.
  revert acc seen. induction refs as [|[manual section] refs IH];
    intros acc seen; simpl.
  - by rewrite app_nil_r.
  - case_decide as Hin; rewrite IH.
    + f_equal. rewrite filter_cons_False by tauto.
      rewrite list_filter_filter. apply list_filter_iff.
      intros e. split; [|tauto]. intros He. split; [done|]. congruence.
    + rewrite <- app_assoc. f_equal. simpl.
      rewrite filter_cons_True by done. f_equal.
      rewrite list_filter_filter. apply list_filter_iff.
      intros e. rewrite not_elem_of_union, not_elem_of_singleton. tauto.
Qed.

Lemma filter_not_seen_empty (l : list text)
    (dec : ∀ k : text, Decision (k ∉ (∅ : gset text))) :
  @filter _ _ _ (fun k => k ∉ (∅ : gset text)) dec l = l.
Proof.
  induction l as [|x l IH]; [done|].
  rewrite filter_cons_True by set_solver. by f_equal.
Qed.

Lemma extract_references_keep_first (s : text) :
  extract_references s
  = keep_first (fun k : text => k)
      ((fun m => ref_key (group m 1) (group m 2)) <$> finditer ref_pattern s).
Proof.
  unfold extract_references. rewrite add_reference_loop. simpl.
  rewrite <- list_fmap_compose. apply filter_not_seen_empty.
Qed.

Ltac inv_matches :=
  repeat match goal with
         | H : matches (Seq _ _) _ _ _ _ _ |- _ => inversion H; subst; clear H
         | H : matches (Grp _ _) _ _ _ _ _ |- _ => inversion H; subst; clear H
         | H : matches (Chr _) _ _ _ _ _ |- _ => inversion H; subst; clear H
         | H : matches (Rep _ _ _) _ _ _ _ _ |- _ => inversion H; subst; clear H
         end.

Lemma hyphenation_match prev (s : text) (n : nat) (g : groups) :
  match_at hyphenation_pattern prev s = Some (n, g) →
  ∃ w1 ws w2 rest,
    s = (w1 ++ "-"%char :: ws ++ w2) ++ rest
    ∧ n = length (w1 ++ "-"%char :: ws ++ w2)
    ∧ hyphenation_repl g = w1 ++ w2
    ∧ w1 ≠ []
    ∧ forallb is_word w1 = true ∧ forallb is_word w2 = true.
Proof.
  intros (w & rest & -> & -> & Hm)%match_at_sound.
  unfold hyphenation_pattern in Hm. cbn [lit list_ascii_of_string] in Hm.
  inv_matches.
  match goal with H : is_char "-" ?c = true |- _ =>
    apply Ascii.eqb_eq in H; subst c end.
  match goal with
  | Hs : forallb is_space ?b = true
    |- context [<[2%nat := ?c]> (<[1%nat := ?a]> ∅)] => exists a, b, c, rest
  end.
  split; [reflexivity|]. split; [reflexivity|].
  split; [|split; [|by split]].
  - unfold hyphenation_repl.
    rewrite lookup_insert_ne, lookup_insert_eq, lookup_insert_eq by done. done.
  - intros ->. simpl in *. lia.
Qed.

Lemma sub_scan_skip r repl (k : nat) prev (s : text) :
  (k <= length s)%nat →
  sub_scan r repl k prev s
  = sub_scan r repl 0 (prev_after prev (take k s)) (drop k s).
Proof.
  revert k prev. induction s as [|c s IH]; intros k prev Hk.
  - simpl in Hk. by replace k with 0%nat by lia.
  - destruct k as [|k]; [done|].
    cbn [sub_scan take drop]. rewrite IH by (simpl in Hk; lia).
    by rewrite prev_after_cons with (prev := prev).
Qed.

Lemma sub_hyphenation_spaced (n : nat) :
  ∀ (s : text) prev, (length s <= n)%nat → single_spaced s = true →
    single_spaced (sub_scan hyphenation_pattern hyphenation_repl 0 prev s) = true
    ∧ head (sub_scan hyphenation_pattern hyphenation_repl 0 prev s) = head s.
Proof.
  induction n as [|n IH]; intros s prev Hlen Hs.
  - destruct s; [|simpl in Hlen; lia]. cbn [sub_scan].
    destruct (match_at hyphenation_pattern prev []) as [[k g]|] eqn:Hm; [|done].
    apply hyphenation_match in Hm as (w1 & ws & w2 & rest & Heq & _).
    by destruct w1.
  - destruct s as [|c s].
    { cbn [sub_scan].
      destruct (match_at hyphenation_pattern prev []) as [[k g]|] eqn:Hm; [|done].
      apply hyphenation_match in Hm as (w1 & ws & w2 & rest & Heq & _).
      by destruct w1. }
    cbn [sub_scan].
    destruct (match_at hyphenation_pattern prev (c :: s)) as [[k g]|] eqn:Hm.
    + apply hyphenation_match in Hm as (w1 & ws & w2 & rest & Heq & -> & -> & Hne & Hw1 & Hw2).
      destruct w1 as [|x w1]; [done|].
      injection Heq as <- ->.
      cbn [length app]. rewrite sub_scan_skip by (rewrite !length_app; lia).
      rewrite drop_app_length.
      change (c :: (w1 ++ "-"%char :: ws ++ w2) ++ rest)
        with ((c :: w1 ++ "-"%char :: ws ++ w2) ++ rest) in Hs.
      apply single_spaced_app in Hs as [_ Hrest].
      match goal with |- context [sub_scan _ _ 0 ?p rest] =>
        destruct (IH rest p) as [Hout _]; [|exact Hrest|] end.
      { simpl in Hlen. rewrite !length_app in Hlen. lia. }
      split; [|done].
      match goal with |- single_spaced (c :: (w1 ++ w2) ++ ?x) = true =>
        change (single_spaced (((c :: w1) ++ w2) ++ x) = true) end.
      rewrite single_spaced_word; [exact Hout|].
      apply (forallb_not_space is_word); [exact word_not_space|].
      by rewrite forallb_app, Hw1, Hw2.
    + destruct (IH s (Some c)) as [Hout Hhead];
        [simpl in Hlen; lia|by eapply single_spaced_cons|].
      split; [|done]. by eapply single_spaced_same_head.
Qed.

Ltac inv_matches_all :=
  repeat match goal with
         | H : matches (Seq _ _) _ _ _ _ _ |- _ => inversion H; subst; clear H
         | H : matches (Grp _ _) _ _ _ _ _ |- _ => inversion H; subst; clear H
         | H : matches (Chr _) _ _ _ _ _ |- _ => inversion H; subst; clear H
         | H : matches (Rep _ _ _) _ _ _ _ _ |- _ => inversion H; subst; clear H
         | H : matches (Alt _ _) _ _ _ _ _ |- _ => inversion H; subst; clear H
         | H : matches (Opt _) _ _ _ _ _ |- _ => inversion H; subst; clear H
         end.

Lemma ref_match_groups prev (w rest : text) (g : groups) :
  matches ref_pattern prev w rest ∅ g →
  ∃ manual section,
    g = <[2%nat := section]> (<[1%nat := manual]> ∅)
    ∧ manual ≠ [] ∧ forallb is_upper manual = true.
Proof.
  intros Hm. unfold ref_pattern in Hm. cbn [lit list_ascii_of_string] in Hm.
  inv_matches_all;
    (eexists _, _; split; [reflexivity|]; split; [|eassumption];
     intros ->; simpl in *; lia).
Qed.

Lemma finditer_ref_groups (s : text) (m : rmatch) :
  m ∈ finditer ref_pattern s →
  group m 1 ≠ [] ∧ forallb is_upper (group m 1) = true.
Proof.
  intros (prev & w & rest & Hm)%scan_sound.
  apply ref_match_groups in Hm as (manual & section & Hg & Hne & Hup).
  unfold group. rewrite Hg, lookup_insert_ne, lookup_insert_eq by done. done.
Qed.

Lemma clean_section_spaced (section : text) :
  single_spaced (clean_section section) = true
  ∧ ∀ c, head (clean_section section) = Some c → is_space c = false.
Proof.
  unfold clean_section. rewrite sub_ws.
  pose proof (collapse_single_spaced false (strip section)) as Hs.
  pose proof (collapse_trimmed _ (strip_trimmed section)) as [Hh _].
  fold (collapse_ws (strip section)) in Hs.
  destruct (sub_hyphenation_spaced (length (collapse_ws (strip section)))
              (collapse_ws (strip section)) None) as [Hs' Hh']; [done|done|].
  fold (sub hyphenation_pattern hyphenation_repl (collapse_ws (strip section))) in *.
  unfold rstrip_chars.
  match goal with |- context [rstrip_by ?p ?x] =>
    destruct (rstrip_by_split p x) as (suf & Heq & _);
    pose proof (rstrip_by_head p x) as Hrh end.
  split.
  - rewrite Heq in Hs'. by apply single_spaced_app in Hs' as [? _].
  - intros c Hc. apply Hh. rewrite <- Hh'. by apply Hrh.
Qed.

Lemma ref_key_spaced (manual section : text) :
  forallb is_upper manual = true → single_spaced (ref_key manual section) = true.
Proof.
  intros Hup. destruct (clean_section_spaced section) as [Hs Hh].
  unfold ref_key. cbn [list_ascii_of_string app].
  change ("["%char :: manual ++ "]"%char :: " "%char :: clean_section section)
    with (("["%char :: manual) ++ ["]"%char] ++ " "%char :: clean_section section).
  rewrite app_assoc, single_spaced_word.
  - rewrite single_spaced_unfold, Hs.
    destruct (clean_section section) as [|d t]; [done|].
    by rewrite (Hh d).
  - rewrite forallb_app. simpl.
    rewrite (forallb_not_space is_upper); [done|exact upper_not_space|done].
Qed.

(** C6. The references of a description are the keys of the matches of
    the reference pattern in their order, each kept at its first occurrence
    only.  A key is a bracket, a manual of capital letters, a bracket, one
    space and the locator; every whitespace character in it is a single
    space.  [[D] append] and [[D]   append] give the same key. *)
Theorem extract_references_first_occurrence :
  (∀ s : text,
     extract_references s
     = keep_first (fun k : text => k)
         ((fun m => ref_key (group m 1) (group m 2)) <$> finditer ref_pattern s))
  ∧ (∀ s : text, NoDup (extract_references s))
  ∧ (∀ s : text,
       extract_references s `sublist_of`
         (fun m => ref_key (group m 1) (group m 2)) <$> finditer ref_pattern s)
  ∧ (∀ (s : text) m, m ∈ finditer ref_pattern s →
       ref_key (group m 1) (group m 2) ∈ extract_references s)
  ∧ (∀ (s k : text), k ∈ extract_references s →
       ∃ manual section,
         k = str "[" ++ manual ++ str "] " ++ clean_section section
         ∧ manual ≠ [] ∧ forallb is_upper manual = true
         ∧ single_spaced (clean_section section) = true
         ∧ single_spaced k = true)
  ∧ extract_references (str "[D] append") = [str "[D] append"]
  ∧ extract_references (str "[D]   append") = [str "[D] append"]
  ∧ extract_references (str "see [D] append, [D]   append.") = [str "[D] append"].
Proof.
  split; [exact extract_references_keep_first|].
  split.
  { intros s. rewrite extract_references_keep_first.
    pose proof (keep_first_NoDup (fun k : text => k)
      ((fun m => ref_key (group m 1) (group m 2)) <$> finditer ref_pattern s)) as H.
    by rewrite list_fmap_id in H. }
  split.
  { intros s. rewrite extract_references_keep_first. apply keep_first_sublist. }
  split.
  { intros s m Hm. rewrite extract_references_keep_first.
    destruct (keep_first_complete (fun k : text => k)
      (ref_key (group m 1) (group m 2))
      ((fun m => ref_key (group m 1) (group m 2)) <$> finditer ref_pattern s))
      as (y & Hy & Heq).
    - apply list_elem_of_fmap. eauto.
    - simpl in Heq. by subst y. }
  split; [|by vm_compute].
  intros s k Hk. rewrite extract_references_keep_first in Hk.
  apply elem_of_keep_first, list_elem_of_fmap in Hk as (m & -> & Hm).
  apply finditer_ref_groups in Hm as [Hne Hup].
  exists (group m 1), (group m 2). split; [done|]. split; [done|]. split; [done|].
  split; [apply clean_section_spaced|by apply ref_key_spaced].
Qed.

Lemma extract_references_witness :
  ref_key (str "D") (str "append")
    ∈ extract_references (str "see [D] append, [D]   append.")
  ∧ single_spaced (str "[U] 12.5 foo bar") = true.
Proof.
  destruct extract_references_first_occurrence as (_ & _ & _ & Hin & Hform & _).
  split.
  - assert (Hm : ∃ m, finditer ref_pattern (str "see [D] append, [D]   append.")
                        !! 1%nat = Some m
                      ∧ group m 1 = str "D" ∧ group m 2 = str "append").
    { eexists. split; [by vm_compute|]. by vm_compute. }
    destruct Hm as (m & Hm & <- & <-).
    apply Hin, list_elem_of_lookup. eauto.
  - destruct (Hform (str "[U] 12.5   foo bar") (str "[U] 12.5 foo bar"))
      as (manual & section & _ & _ & _ & _ & Hs); [|exact Hs].
    apply list_elem_of_lookup. exists 0%nat. by vm_compute.
Defined.

(** * Further properties of the validator *)

(** ** The required-codes check *)

Lemma check_required_codes_nil (codes : list Z) :
  check_required_codes codes = [] ↔ ∀ c, c ∈ REQUIRED_CODES → c ∈ codes.
Proof.
  unfold check_required_codes.
  pose proof (list_elem_of_filter (fun c => c ∉ codes) REQUIRED_CODES) as Hf.
  destruct (filter (fun c => c ∉ codes) REQUIRED_CODES) as [|m missing].
  - split; [|done]. intros _ c Hc.
    destruct (decide (c ∈ codes)) as [|Hn]; [done|].
    exfalso. eapply elem_of_nil, Hf. by split.
  - split; [done|]. intros Hall. exfalso.
    destruct (proj1 (Hf m) ltac:(left)) as [Hn Hm]. by apply Hn, Hall.
Qed.

(** X1. The check is silent exactly when every required code is present;
    otherwise it reports the required codes that are absent, and no other
    code, followed by the note. *)
Theorem check_required_codes_exact (codes : list Z) :
  (check_required_codes codes = [] ↔ ∀ c, c ∈ REQUIRED_CODES → c ∈ codes)
  ∧ (check_required_codes codes = []
     ∨ ∃ missing,
         check_required_codes codes = [MissingRequired missing; MissingRequiredNote]
         ∧ missing ≠ []
         ∧ missing `sublist_of` REQUIRED_CODES
         ∧ ∀ c, c ∈ missing ↔ c ∈ REQUIRED_CODES ∧ c ∉ codes).
Proof.
  split; [apply check_required_codes_nil|].
  unfold check_required_codes.
  pose proof (list_elem_of_filter (fun c => c ∉ codes) REQUIRED_CODES) as Hf.
  pose proof (sublist_filter (fun c => c ∉ codes) REQUIRED_CODES) as Hsub.
  destruct (filter (fun c => c ∉ codes) REQUIRED_CODES) as [|m missing].
  - by left.
  - right. exists (m :: missing).
    split; [done|]. split; [done|]. split; [exact Hsub|].
    intros c. rewrite Hf. tauto.
Qed.

Lemma check_required_codes_witness :
  check_required_codes [1; 198; 199; 601; 603; 950; 7] = []
  ∧ check_required_codes [1; 198; 199; 950]
    = [MissingRequired [601; 603]; MissingRequiredNote].
Proof.
  split; [|by vm_compute].
  destruct (check_required_codes_exact [1; 198; 199; 601; 603; 950; 7]) as [Hiff _].
  apply Hiff. intros c Hc. unfold REQUIRED_CODES in Hc.
  repeat (apply elem_of_cons in Hc as [->|Hc]);
    [..|by apply elem_of_nil in Hc]; apply list_elem_of_In; simpl; auto 10.
Defined.

(** ** The duplicate check *)

Lemma add_seen_loop (codes : list Z) (seen duplicates : gset Z) :
  ∀ c, c ∈ (fold_left add_seen codes (seen, duplicates)).2
       ↔ c ∈ duplicates
         ∨ ∃ l1 l2, codes = l1 ++ c :: l2 ∧ (c ∈ seen ∨ c ∈ l1).
Proof.
  revert seen duplicates. induction codes as [|x codes IH];
    intros seen duplicates c; simpl.
  - split; [by left|]. intros [?|(l1 & l2 & Heq & _)]; [done|].
    by destruct l1.
  - rewrite IH. split.
    + intros [Hd|(l1 & l2 & -> & Hc)].
      * case_decide; [|by left].
        apply elem_of_union in Hd as [? | ->%elem_of_singleton]; [by left|].
        right. exists [], codes. by split; [|left].
      * right. exists (x :: l1), l2. split; [done|].
        destruct Hc as [[? | ->%elem_of_singleton]%elem_of_union|?];
          [by left|right; left|right; by right].
    + intros [Hd|(l1 & l2 & Heq & Hc)].
      * left. case_decide; set_solver.
      * destruct l1 as [|y l1]; simplify_eq/=.
        { left. destruct Hc as [Hc|Hc]; [|by apply elem_of_nil in Hc].
          rewrite decide_True by done. set_solver. }
        right. exists l1, l2. split; [done|].
        destruct Hc as [?|[->|?]%elem_of_cons]; set_solver.
Qed.

Lemma NoDup_no_repeat (l : list Z) :
  NoDup l ↔ ¬ ∃ c l1 l2, l = l1 ++ c :: l2 ∧ c ∈ l1.
Proof.
  split.
  - intros Hnd (c & l1 & l2 & -> & Hc).
    apply NoDup_app in Hnd as (_ & Hdis & _). apply (Hdis c Hc). left.
  - induction l as [|x l IH]; intros Hno; [constructor|].
    constructor.
    + intros (l1 & l2 & ->)%list_elem_of_split.
      apply Hno. exists x, (x :: l1), l2. split; [done|left].
    + apply IH. intros (c & l1 & l2 & -> & Hc).
      apply Hno. exists c, (x :: l1), l2. split; [done|by right].
Qed.

Lemma duplicates_of_loop (codes : list Z) :
  ∀ c, c ∈ (fold_left add_seen codes (∅, ∅)).2
       ↔ ∃ l1 l2, codes = l1 ++ c :: l2 ∧ c ∈ l1.
Proof.
  intros c. rewrite add_seen_loop. split.
  - intros [?%not_elem_of_empty|(l1 & l2 & ? & [?%not_elem_of_empty|?])];
      try done. eauto.
  - intros (l1 & l2 & ? & ?). right. exists l1, l2. auto.
Qed.

Lemma check_duplicates_nil (codes : list Z) :
  check_duplicates codes = [] ↔ NoDup codes.
Proof.
  unfold check_duplicates.
  pose proof (duplicates_of_loop codes) as Hdup.
  destruct (fold_left add_seen codes (∅, ∅)) as [seen dups]. simpl in Hdup.
  rewrite NoDup_no_repeat. case_decide as He; split; try done.
  - intros _ (c & l1 & l2 & Hc). subst dups.
    apply (not_elem_of_empty (C:=gset Z) c), Hdup. eauto.
  - intros Hno. exfalso. apply He. apply set_eq. intros c.
    rewrite Hdup. split; [|by intros ?%not_elem_of_empty].
    intros (l1 & l2 & Hc). exfalso. apply Hno. eauto.
Qed.

(** X2. The check is silent exactly when no code is repeated; otherwise
    its output is one report, which lists in ascending order and once each
    the codes that occur after an earlier occurrence of themselves, and no
    other code. *)
Theorem check_duplicates_exact (codes : list Z) :
  (check_duplicates codes = [] ↔ NoDup codes)
  ∧ (check_duplicates codes = []
     ∨ ∃ duplicates,
         check_duplicates codes = [DuplicatesFound duplicates]
         ∧ duplicates ≠ []
         ∧ StronglySorted Z.lt duplicates
         ∧ ∀ c, c ∈ duplicates ↔ ∃ l1 l2, codes = l1 ++ c :: l2 ∧ c ∈ l1).
Proof.
  split; [apply check_duplicates_nil|].
  unfold check_duplicates.
  pose proof (duplicates_of_loop codes) as Hdup.
  destruct (fold_left add_seen codes (∅, ∅)) as [seen dups]. simpl in Hdup.
  case_decide as He; [by left|]. right.
  assert (Hin : ∀ c, c ∈ sorted (elements dups)
                     ↔ ∃ l1 l2, codes = l1 ++ c :: l2 ∧ c ∈ l1).
  { intros c. unfold sorted. rewrite elem_of_sort_by_key, elem_of_elements.
    apply Hdup. }
  exists (sorted (elements dups)). split; [done|]. split; [|split; [|exact Hin]].
  - intros Hnil. apply He. apply set_eq. intros c.
    rewrite Hdup, <- Hin, Hnil. split; [by intros ?%elem_of_nil|].
    by intros ?%not_elem_of_empty.
  - apply (sorted_NoDup_strict (fun c : Z => c)).
    + apply sort_by_key_sorted.
    + rewrite list_fmap_id. unfold sorted. rewrite sort_by_key_perm.
      apply NoDup_elements.
Qed.

Lemma check_duplicates_witness :
  check_duplicates [5; 1; 5; 1; 5] = [DuplicatesFound [1; 5]]
  ∧ check_duplicates [5; 1; 7] = [].
Proof.
  split; [by vm_compute|].
  destruct (check_duplicates_exact [5; 1; 7]) as [Hnil _].
  apply Hnil. repeat constructor; set_solver.
Defined.

(** ** The completeness check *)

Lemma lacks_description_undescribed (e : json_entry) :
  lacks_description e = undescribed e.
Proof.
  assert (Hstrip : ∀ d : text,
    match strip d with [] => true | _ => false end = blank d).
  { intros d. pose proof (strip_nil d) as Hd.
    destruct (strip d), (blank d); try done.
    - discriminate (proj1 Hd eq_refl).
    - discriminate (proj2 Hd eq_refl). }
  unfold lacks_description, undescribed, or_else.
  destruct (e_description e) as [[|c d]|]; [|apply Hstrip|];
    (destruct (e_Description e) as [d'|]; [|done]);
    (destruct d' as [|c' d']; [done|apply Hstrip]).
Qed.

Lemma filter_lacks_description (error_data : list json_entry) :
  List.filter lacks_description error_data = List.filter undescribed error_data.
Proof. apply filter_ext. intros e. apply lacks_description_undescribed. Qed.

Lemma filter_nil {A} (f : A → bool) (l : list A) :
  List.filter f l = [] ↔ ∀ x, x ∈ l → f x = false.
Proof.
  induction l as [|x l IH]; simpl.
  - split; [|done]. by intros _ x ?%elem_of_nil.
  - destruct (f x) eqn:Hx.
    + split; [done|]. intros H. specialize (H x ltac:(left)). congruence.
    + rewrite IH. split.
      * intros H y [->|?]%elem_of_cons; auto.
      * intros H y Hy. apply H. by right.
Qed.

Lemma check_descriptions_nil (error_data : list json_entry) :
  check_descriptions error_data = []
  ↔ ∀ e, e ∈ error_data → undescribed e = false.
Proof.
  rewrite <- filter_nil, <- filter_lacks_description. unfold check_descriptions.
  destruct (List.filter lacks_description error_data); simpl; by split.
Qed.

(** X3. The check is silent exactly when no entry is without a
    description.  Otherwise its output is one report with the codes of the
    first ten such entries, in their order, followed by the number of the
    others when there are more than ten.  The code shown for an entry is its
    ['code'], unless that is 0: then it is what ['Code'] holds, and [None]
    when the entry has no ['Code']. *)
Theorem check_descriptions_exact (error_data : list json_entry) :
  let missing := List.filter undescribed error_data in
  (check_descriptions error_data = []
   ↔ ∀ e, e ∈ error_data → undescribed e = false)
  ∧ (check_descriptions error_data = []
     ∨ ∃ shown more,
         check_descriptions error_data = MissingDescriptions shown :: more
         ∧ shown ≠ []
         ∧ length shown = (length missing `min` 10)%nat
         ∧ (∀ i e, (i < 10)%nat → missing !! i = Some e →
              shown !! i
              = Some (if decide (e_code e = 0) then e_Code e else JInt (e_code e)))
         ∧ more = if decide (length missing <= 10)%nat then []
                  else [MissingDescriptionsMore (length missing - 10)]).
Proof.
  intros missing. split; [apply check_descriptions_nil|].
  unfold check_descriptions. rewrite filter_lacks_description. fold missing.
  generalize missing. clear missing. intros missing.
  destruct (entry_code <$> missing) as [|c0 cs] eqn:Hf; [by left|]. right.
  rewrite <- Hf.
  eexists _, _. split; [reflexivity|]. split; [|split; [|split]].
  - by rewrite Hf.
  - rewrite length_take, length_fmap. lia.
  - intros i e Hi He. rewrite lookup_take_lt by done.
    rewrite list_lookup_fmap, He. simpl. f_equal. unfold entry_code.
    destruct (Z.eqb_spec (e_code e) 0); by case_decide.
  - rewrite length_fmap.
    destruct (Nat.ltb_spec 10 (length missing)); case_decide; try done; lia.
Qed.

Lemma check_descriptions_witness :
  check_descriptions (j_errors Inputs.json_complete) = []
  ∧ check_descriptions
      [ {| e_code := 0; e_Code := JNull;
           e_description := Some (str "  "); e_Description := Some (str "good") |};
        {| e_code := 0; e_Code := JInt 5;
           e_description := None; e_Description := Some (str " ") |};
        {| e_code := 7; e_Code := JInt 5;
           e_description := Some []; e_Description := None |};
        {| e_code := 8; e_Code := JNull;
           e_description := Some []; e_Description := Some (str "good") |} ]
    = [MissingDescriptions [JNull; JInt 5; JInt 7]].
Proof.
  split; [|by vm_compute].
  destruct (check_descriptions_exact (j_errors Inputs.json_complete)) as [Hiff _].
  apply Hiff. intros e He. unfold Inputs.json_complete in He.
  apply list_elem_of_fmap in He as (c & -> & _). by vm_compute.
Defined.

(** ** The agreement check *)

Lemma take_sorted_elements (X : gset Z) (c : Z) :
  c ∈ take 10 (sorted (elements X)) → c ∈ X.
Proof.
  intros Hc. apply elem_of_elements.
  apply (elem_of_sort_by_key (fun c : Z => c)).
  eapply elem_of_sublist; [exact Hc|apply sublist_take].
Qed.

Lemma check_file_consistency_nil (json_data : list json_entry)
    (csv_data : list csv_row) :
  check_file_consistency json_data csv_data = []
  ↔ ∀ c, c ∈ e_code <$> json_data ↔ c ∈ row_code <$> csv_data.
Proof.
  unfold check_file_consistency.
  set (J := list_to_set (e_code <$> json_data) : gset Z).
  set (C := list_to_set (row_code <$> csv_data) : gset Z).
  assert (HJ : ∀ c, c ∈ J ↔ c ∈ e_code <$> json_data)
    by (intros c; apply elem_of_list_to_set).
  assert (HC : ∀ c, c ∈ C ↔ c ∈ row_code <$> csv_data)
    by (intros c; apply elem_of_list_to_set).
  case_decide as Heq.
  - split; [|done]. intros _ c. by rewrite <- HJ, <- HC, Heq.
  - split.
    + intros Hnil. apply app_eq_nil in Hnil as [H1 H2].
      destruct (decide (J ∖ C = ∅)) as [H1'|]; [|done].
      destruct (decide (C ∖ J = ∅)) as [H2'|]; [|done].
      exfalso. apply Heq. apply set_eq. intros c.
      split; intros Hc.
      * destruct (decide (c ∈ C)) as [|Hn]; [done|].
        exfalso. apply (not_elem_of_empty (C:=gset Z) c). rewrite <- H1'.
        by apply elem_of_difference.
      * destruct (decide (c ∈ J)) as [|Hn]; [done|].
        exfalso. apply (not_elem_of_empty (C:=gset Z) c). rewrite <- H2'.
        by apply elem_of_difference.
    + intros Hall. exfalso. apply Heq. apply set_eq. intros c.
      by rewrite HJ, HC.
Qed.

(** X4. The check is silent exactly when the JSON and the CSV artifact
    hold the same set of codes, whatever their order and multiplicity.  A code it
    reports as only in one artifact is in that artifact and not in the
    other, and at most ten codes are shown per direction. *)
Theorem check_file_consistency_exact (json_data : list json_entry)
    (csv_data : list csv_row) :
  (check_file_consistency json_data csv_data = []
   ↔ ∀ c, c ∈ e_code <$> json_data ↔ c ∈ row_code <$> csv_data)
  ∧ (∀ codes, OnlyInJson codes ∈ check_file_consistency json_data csv_data →
       (length codes <= 10)%nat
       ∧ ∀ c, c ∈ codes → c ∈ e_code <$> json_data ∧ c ∉ row_code <$> csv_data)
  ∧ (∀ codes, OnlyInCsv codes ∈ check_file_consistency json_data csv_data →
       (length codes <= 10)%nat
       ∧ ∀ c, c ∈ codes → c ∈ row_code <$> csv_data ∧ c ∉ e_code <$> json_data).
Proof.
  split; [apply check_file_consistency_nil|].
  unfold check_file_consistency.
  set (J := list_to_set (e_code <$> json_data) : gset Z).
  set (C := list_to_set (row_code <$> csv_data) : gset Z).
  assert (HJ : ∀ c, c ∈ J ↔ c ∈ e_code <$> json_data)
    by (intros c; apply elem_of_list_to_set).
  assert (HC : ∀ c, c ∈ C ↔ c ∈ row_code <$> csv_data)
    by (intros c; apply elem_of_list_to_set).
  split.
  - intros codes. case_decide; [by intros ?%elem_of_nil|].
    intros [Hin|Hin]%elem_of_app.
    + destruct (decide (J ∖ C = ∅)); [by apply elem_of_nil in Hin|].
      apply list_elem_of_singleton in Hin. injection Hin as ->.
      split; [rewrite length_take; lia|].
      intros c [??]%take_sorted_elements%elem_of_difference.
      by rewrite <- HJ, <- HC.
    + destruct (decide (C ∖ J = ∅)); [by apply elem_of_nil in Hin|].
      by apply list_elem_of_singleton in Hin.
  - intros codes. case_decide; [by intros ?%elem_of_nil|].
    intros [Hin|Hin]%elem_of_app.
    + destruct (decide (J ∖ C = ∅)); [by apply elem_of_nil in Hin|].
      by apply list_elem_of_singleton in Hin.
    + destruct (decide (C ∖ J = ∅)); [by apply elem_of_nil in Hin|].
      apply list_elem_of_singleton in Hin. injection Hin as ->.
      split; [rewrite length_take; lia|].
      intros c [??]%take_sorted_elements%elem_of_difference.
      by rewrite <- HJ, <- HC.
Qed.

Lemma check_file_consistency_witness :
  check_file_consistency (j_errors Inputs.json_complete) Inputs.csv_complete = []
  ∧ check_file_consistency (j_errors Inputs.json_complete) Inputs.csv_without_601
    = [OnlyInJson [601]; OnlyInCsv [608]].
Proof.
  split; [|by vm_compute].
  destruct (check_file_consistency_exact (j_errors Inputs.json_complete)
              Inputs.csv_complete) as [Hiff _].
  apply Hiff. intros c.
  assert (e_code <$> j_errors Inputs.json_complete
          = row_code <$> Inputs.csv_complete) as -> by by vm_compute.
  done.
Defined.

(** ** The gap heuristic *)

Lemma sorted_permutation (l1 l2 : list Z) : l1 ≡ₚ l2 → sorted l1 = sorted l2.
Proof.
  intros Hp. unfold sorted.
  apply (StronglySorted_unique Z.le).
  - apply (sort_by_key_sorted (fun c : Z => c)).
  - apply (sort_by_key_sorted (fun c : Z => c)).
  - by rewrite !sort_by_key_perm.
Qed.

Lemma large_gaps_nil (l : list Z) :
  large_gaps l = []
  ↔ ∀ i a b, l !! i = Some a → l !! S i = Some b → b - a <= 20.
Proof.
  induction l as [|x l IH]; [done|].
  destruct l as [|y l].
  - split; [|done]. by intros _ [|i] a b.
  - change (large_gaps (x :: y :: l))
      with (if 20 <? y - x then (x, y, y - x) :: large_gaps (y :: l)
            else large_gaps (y :: l)).
    destruct (Z.ltb_spec 20 (y - x)) as [Hlt|Hge].
    + split; [done|]. intros Hall. specialize (Hall 0%nat x y eq_refl eq_refl). lia.
    + rewrite IH. split.
      * intros Hall [|i] a b Ha Hb; simpl in *; [by simplify_eq|by eapply Hall].
      * intros Hall i a b Ha Hb. by apply (Hall (S i)).
Qed.

(** X5. The gap warning depends on the codes only up to their order.  It is
    absent exactly when no two neighbours of the sorted codes are more than
    20 apart, and it never has more than eight lines: a header, at most
    five gaps, a count of the others and a footer. *)
Theorem check_code_ranges_exact :
  (∀ codes codes' : list Z, codes ≡ₚ codes' →
     check_code_ranges codes = check_code_ranges codes')
  ∧ (∀ codes : list Z,
       check_code_ranges codes = []
       ↔ ∀ i a b, sorted codes !! i = Some a → sorted codes !! S i = Some b →
           b - a <= 20)
  ∧ (∀ codes : list Z, (length (check_code_ranges codes) <= 8)%nat)
  ∧ (∀ codes n, GapsMore n ∈ check_code_ranges codes →
       (n + 5)%nat = length (large_gaps (sorted codes))).
Proof.
  split; [|split; [|split]].
  - intros codes codes' Hp. unfold check_code_ranges.
    by rewrite (sorted_permutation codes codes').
  - intros codes. rewrite <- large_gaps_nil. unfold check_code_ranges.
    by destruct (large_gaps (sorted codes)).
  - intros codes. unfold check_code_ranges.
    destruct (large_gaps (sorted codes)) as [|g gaps]; [simpl; lia|].
    generalize (g :: gaps) as l. intros l.
    change (length (GapsHeader :: ?x)) with (S (length x)).
    rewrite !length_app, length_fmap, length_take.
    destruct (5 <? length l)%nat; cbn [length]; lia.
  - intros codes n. unfold check_code_ranges.
    destruct (large_gaps (sorted codes)) as [|g gaps]; [by intros ?%elem_of_nil|].
    rewrite elem_of_cons, !elem_of_app, list_elem_of_fmap.
    intros [?|[([[a b] c] & ? & _)|[Hin|Hin]]]; try done.
    + destruct (Nat.ltb_spec 5 (length (g :: gaps))); [|by apply elem_of_nil in Hin].
      apply list_elem_of_singleton in Hin. injection Hin as ->. simpl in *. lia.
    + by apply list_elem_of_singleton in Hin.
Qed.

Lemma check_code_ranges_witness :
  check_code_ranges [950; 1; 601] = check_code_ranges [1; 601; 950]
  ∧ check_code_ranges [1; 601; 950]
    = [GapsHeader; GapLine 600 1 601; GapLine 349 601 950; GapsFooter].
Proof.
  destruct check_code_ranges_exact as (Hperm & _).
  split; [|by vm_compute].
  apply Hperm. apply (Permutation_trans (l' := [1; 950; 601])).
  - apply Permutation_swap.
  - apply Permutation_skip, Permutation_swap.
Defined.

(** ** The exit status of the validator *)






(** * Further properties of the parser *)

(** ** Normalised fields *)

Lemma strip_spaced (s : text) : single_spaced s = true → single_spaced (strip s) = true.
Proof.
  intros Hs. unfold strip.
  destruct (lstrip_by_split is_space s) as (pre & Heq & _).
  rewrite Heq in Hs. apply single_spaced_app in Hs as [_ Hs].
  destruct (rstrip_by_split is_space (lstrip_by is_space s)) as (suf & Heq' & _).
  rewrite Heq' in Hs. by apply single_spaced_app in Hs as [? _].
Qed.

Lemma normalize_spaced (s : text) : single_spaced (normalize s) = true.
Proof.
  rewrite normalize_collapse. apply strip_spaced, collapse_single_spaced.
Qed.

Lemma normalize_trimmed (s : text) : trimmed (normalize s).
Proof. rewrite normalize_collapse. apply strip_trimmed. Qed.

Lemma normalize_idem (s : text) : normalize (normalize s) = normalize s.
Proof. apply normalize_clean; [apply normalize_spaced|apply normalize_trimmed]. Qed.

Lemma single_spaced_no_control (s : text) (c : ascii) :
  single_spaced s = true → c ∈ s → is_space c = true → c = " "%char.
Proof.
  induction s as [|x s IH]; [by intros _ ?%elem_of_nil|].
  intros Hs [->|Hin]%elem_of_cons Hc.
  - by eapply single_spaced_space.
  - apply IH; [by eapply single_spaced_cons|done|done].
Qed.

(** X7. The name and the description of every record the parser returns are
    whitespace-normalised: no whitespace at either end, no whitespace
    character other than the space (so no newline and no tab), and no two
    spaces in a row. *)
Theorem parsed_fields_normalized (content : text) (r : StataErrorCode) :
  r ∈ parse_error_codes_markdown content →
  (trimmed (name r) ∧ single_spaced (name r) = true
   ∧ ∀ c, c ∈ name r → is_space c = true → c = " "%char)
  ∧ (trimmed (description r) ∧ single_spaced (description r) = true
     ∧ ∀ c, c ∈ description r → is_space c = true → c = " "%char).
Proof.
  intros Hr. apply elem_of_parse, raw_errors_constructed in Hr.
  destruct Hr as (c & n & d & refs & ->). simpl.
  split; (split; [apply normalize_trimmed|]; split; [apply normalize_spaced|]);
    intros x; apply single_spaced_no_control, normalize_spaced.
Qed.

Lemma parsed_fields_normalized_witness :
  ∃ r, parse_error_codes_markdown Inputs.two_headers !! 0%nat = Some r
       ∧ trimmed (name r) ∧ single_spaced (description r) = true.
Proof.
  eexists. split; [by vm_compute|].
  match goal with |- trimmed (name ?r) ∧ _ =>
    destruct (parsed_fields_normalized Inputs.two_headers r)
      as [(Hn & _) (_ & Hd & _)] end.
  - apply list_elem_of_lookup. exists 0%nat. by vm_compute.
  - by split.
Defined.

(** X8. Building a record from the fields of a built record changes nothing:
    [__post_init__] is idempotent. *)
Theorem post_init_idempotent (r : StataErrorCode) :
  __post_init__ (__post_init__ r) = __post_init__ r.
Proof.
  unfold __post_init__. simpl. rewrite !normalize_idem.
  by destruct (category r).
Qed.

(** ** Codes *)

Ltac inv_regex :=
  repeat match goal with
         | H : matches ?r _ _ _ _ _ |- _ =>
             first [is_var r; fail 1 | inversion H; subst; clear H]
         end.

Ltac solve_group1 :=
  eexists; split;
  [rewrite ?lookup_insert_ne by done; rewrite lookup_insert_eq; reflexivity
  |assumption].

Lemma header_code_digits prev (w rest : text) (g : groups) :
  matches header_pattern prev w rest ∅ g →
  ∃ d, g !! 1%nat = Some d ∧ forallb is_digit d = true.
Proof.
  unfold header_pattern. cbn [lit list_ascii_of_string].
  intros Hm. inv_regex; solve_group1.
Qed.

Lemma table_code_digits prev (w rest : text) (g : groups) :
  matches table_pattern prev w rest ∅ g →
  ∃ d, g !! 1%nat = Some d ∧ forallb is_digit d = true.
Proof.
  unfold table_pattern. cbn [lit list_ascii_of_string].
  intros Hm. inv_regex; solve_group1.
Qed.

Lemma numbered_code_digits prev (w rest : text) (g : groups) :
  matches numbered_list_pattern prev w rest ∅ g →
  ∃ d, g !! 1%nat = Some d ∧ forallb is_digit d = true.
Proof.
  unfold numbered_list_pattern. cbn [lit list_ascii_of_string].
  intros Hm. inv_regex; solve_group1.
Qed.

Lemma simple_code_digits prev (w rest : text) (g : groups) :
  matches simple_pattern prev w rest ∅ g →
  ∃ d, g !! 1%nat = Some d ∧ forallb is_digit d = true.
Proof.
  unfold simple_pattern. cbn [lit list_ascii_of_string].
  intros Hm. inv_regex; solve_group1.
Qed.

Lemma digit_value (c : ascii) : is_digit c = true → 0 <= Z.of_N (cp c) - 48 <= 9.
Proof.
  unfold is_digit, in_range. intros [H1 H2]%andb_true_iff.
  apply N.leb_le in H1, H2. lia.
Qed.

Lemma int_from_nonneg (d : text) (acc : Z) :
  forallb is_digit d = true → 0 <= acc →
  0 <= fold_left (fun acc c => 10 * acc + (Z.of_N (cp c) - 48)) d acc.
Proof.
  revert acc. induction d as [|c d IH]; intros acc; simpl; [done|].
  intros [Hc Hd]%andb_true_iff Hacc. apply IH; [done|].
  pose proof (digit_value c Hc). lia.
Qed.

Lemma finditer_code_nonneg (r : regex) (s : text) (m : rmatch) :
  (∀ prev w rest g, matches r prev w rest ∅ g →
     ∃ d, g !! 1%nat = Some d ∧ forallb is_digit d = true) →
  m ∈ finditer r s → 0 <= int (group m 1).
Proof.
  intros Hr (prev & w & rest & Hm)%scan_sound.
  apply Hr in Hm as (d & Hg & Hd). unfold group. rewrite Hg. simpl.
  by apply int_from_nonneg.
Qed.

Lemma raw_errors_code_nonneg (content : text) (r : StataErrorCode) :
  r ∈ raw_errors content → 0 <= code r.
Proof.
  rewrite raw_errors_chain. unfold strategies, header_strategy. simpl.
  assert (Hh : r ∈ header_records content (header_sections content) → 0 <= code r).
  { unfold header_records.
    intros (i & [[c n] p] & -> & Hi)%elem_of_lookup_imap. simpl.
    apply list_elem_of_lookup_2 in Hi. unfold header_sections in Hi.
    apply list_elem_of_fmap in Hi as (m & [= -> _ _] & Hm).
    eapply finditer_code_nonneg; [apply header_code_digits|done]. }
  assert (Ht : r ∈ table_records content → 0 <= code r).
  { unfold table_records. intros (m & -> & Hm)%list_elem_of_fmap. simpl.
    eapply finditer_code_nonneg; [apply table_code_digits|done]. }
  assert (Hn : r ∈ numbered_list_records content → 0 <= code r).
  { unfold numbered_list_records.
    intros (i & m & -> & Hi)%elem_of_lookup_imap. simpl.
    apply list_elem_of_lookup_2 in Hi.
    eapply finditer_code_nonneg; [apply numbered_code_digits|done]. }
  assert (Hi : r ∈ inline_records content → 0 <= code r).
  { unfold inline_records. intros (m & -> & Hm)%list_elem_of_fmap.
    unfold inline_record. destruct (inline_split _). simpl.
    eapply finditer_code_nonneg; [apply simple_code_digits|done]. }
  destruct (header_records _ _); [|done].
  destruct (table_records _); [|done].
  destruct (numbered_list_records _); [|done].
  destruct (inline_records _); [by intros ?%elem_of_nil|done].
Qed.

(** X9. The code of every record the parser returns is a non-negative
    integer. *)
Theorem parsed_codes_nonnegative (content : text) (r : StataErrorCode) :
  r ∈ parse_error_codes_markdown content → 0 <= code r.
Proof. intros Hr. by apply (raw_errors_code_nonneg content), elem_of_parse. Qed.

Lemma parsed_codes_nonnegative_witness :
  ∃ r, parse_error_codes_markdown Inputs.numbered_only !! 1%nat = Some r
       ∧ 0 <= code r.
Proof.
  eexists. split; [by vm_compute|].
  apply (parsed_codes_nonnegative Inputs.numbered_only).
  apply list_elem_of_lookup. exists 1%nat. by vm_compute.
Defined.

(** ** The empty result and the exit status of the extraction *)

Lemma keep_first_nil {A K} `{EqDecision K} (key : A → K) (l : list A) :
  keep_first key l = [] ↔ l = [].
Proof. by destruct l. Qed.

Lemma sort_by_key_nil {A} (key : A → Z) (l : list A) :
  sort_by_key key l = [] ↔ l = [].
Proof.
  split; [|by intros ->].
  intros Hnil. apply Permutation_nil_r. by rewrite <- Hnil, sort_by_key_perm.
Qed.

Lemma parse_nil (content : text) :
  parse_error_codes_markdown content = [] ↔ raw_errors content = [].
Proof.
  unfold parse_error_codes_markdown.
  by rewrite remove_duplicates_keep_first, keep_first_nil, sort_by_key_nil.
Qed.

Lemma code_raises_true (pattern : regex) (content : text) :
  code_raises pattern content = true
  ↔ ∃ m, m ∈ finditer pattern content ∧ int_raises (group m 1) = true.
Proof.
  unfold code_raises. rewrite existsb_exists.
  split; intros (m & Hm & Hr); exists m; by rewrite list_elem_of_In in *.
Qed.

Lemma code_raises_false (pattern : regex) (content : text) (m : rmatch) :
  code_raises pattern content = false → m ∈ finditer pattern content →
  int_raises (group m 1) = false.
Proof.
  intros Hf Hm. destruct (int_raises (group m 1)) eqn:Hr; [|done].
  rewrite <- Hf. symmetry. apply code_raises_true. eauto.
Qed.

Lemma raises_chain (content : text) :
  raises content
  = code_raises header_pattern content
    || match header_strategy content with
       | _ :: _ => false
       | [] =>
           code_raises table_pattern content
           || match table_records content with
              | _ :: _ => false
              | [] =>
                  code_raises numbered_list_pattern content
                  || match numbered_list_records content with
                     | _ :: _ => false
                     | [] => code_raises simple_pattern content
                     end
              end
       end.
Proof.
  unfold raises, header_strategy.
  destruct (header_sections content) as [|[[c n] p] sections]; simpl.
  - by destruct (table_records content).
  - done.
Qed.

Lemma int_from_bound (d : text) (acc : Z) :
  forallb is_digit d = true → 0 <= acc →
  fold_left (fun acc c => 10 * acc + (Z.of_N (cp c) - 48)) d acc
  < (acc + 1) * 10 ^ Z.of_nat (length d).
Proof.
  revert acc. induction d as [|c d IH]; intros acc; cbn [fold_left length forallb].
  - intros _ _. change (Z.of_nat 0) with 0. rewrite Z.pow_0_r. lia.
  - intros [Hc Hd]%andb_true_iff Hacc.
    pose proof (digit_value c Hc) as Hv.
    rewrite Nat2Z.inj_succ, Z.pow_succ_r by lia.
    eapply Z.lt_le_trans; [apply IH; [done|lia]|].
    assert (0 <= 10 ^ Z.of_nat (length d)) by (apply Z.pow_nonneg; lia).
    nia.
Qed.

Lemma int_bound (d : text) :
  forallb is_digit d = true → int_raises d = false →
  0 <= int d < 10 ^ int_max_str_digits.
Proof.
  intros Hd Hr. split; [by apply int_from_nonneg|].
  unfold int_raises in Hr. apply Z.ltb_ge in Hr.
  eapply Z.lt_le_trans; [by apply (int_from_bound d 0)|].
  rewrite Z.mul_1_l. apply Z.pow_le_mono_r; lia.
Qed.

Lemma str_raises_false (n : Z) :
  0 <= n < 10 ^ int_max_str_digits → str_raises n = false.
Proof. intros Hn. unfold str_raises. apply Z.leb_gt. lia. Qed.

Lemma finditer_code_bound (r : regex) (s : text) (m : rmatch) :
  (∀ prev w rest g, matches r prev w rest ∅ g →
     ∃ d, g !! 1%nat = Some d ∧ forallb is_digit d = true) →
  code_raises r s = false → m ∈ finditer r s →
  0 <= int (group m 1) < 10 ^ int_max_str_digits.
Proof.
  intros Hr Hf Hm. pose proof (code_raises_false r s m Hf Hm) as Hshort.
  apply scan_sound in Hm as (prev & w & rest & Hm).
  apply Hr in Hm as (d & Hg & Hd). unfold group in *. rewrite Hg in *. simpl in *.
  by apply int_bound.
Qed.

Lemma header_record_code (content : text) (r : StataErrorCode) :
  r ∈ header_strategy content →
  ∃ m, m ∈ finditer header_pattern content ∧ code r = int (group m 1).
Proof.
  unfold header_strategy, header_records.
  intros (i & [[c n] p] & -> & Hi)%elem_of_lookup_imap. simpl.
  apply list_elem_of_lookup_2 in Hi. unfold header_sections in Hi.
  apply list_elem_of_fmap in Hi as (m & [= -> _ _] & Hm). eauto.
Qed.

Lemma table_record_code (content : text) (r : StataErrorCode) :
  r ∈ table_records content →
  ∃ m, m ∈ finditer table_pattern content ∧ code r = int (group m 1).
Proof. unfold table_records. intros (m & -> & Hm)%list_elem_of_fmap. eauto. Qed.

Lemma numbered_record_code (content : text) (r : StataErrorCode) :
  r ∈ numbered_list_records content →
  ∃ m, m ∈ finditer numbered_list_pattern content ∧ code r = int (group m 1).
Proof.
  unfold numbered_list_records.
  intros (i & m & -> & Hi)%elem_of_lookup_imap. simpl.
  apply list_elem_of_lookup_2 in Hi. eauto.
Qed.

Lemma inline_record_code (content : text) (r : StataErrorCode) :
  r ∈ inline_records content →
  ∃ m, m ∈ finditer simple_pattern content ∧ code r = int (group m 1).
Proof.
  unfold inline_records. intros (m & -> & Hm)%list_elem_of_fmap.
  exists m. split; [done|]. unfold inline_record. by destruct (inline_split _).
Qed.

Lemma raw_errors_code_bound (content : text) (r : StataErrorCode) :
  raises content = false → r ∈ raw_errors content →
  0 <= code r < 10 ^ int_max_str_digits.
Proof.
  rewrite raises_chain, raw_errors_chain. unfold strategies. simpl.
  intros [Hh H]%orb_false_iff.
  destruct (header_strategy content) as [|r0 l0] eqn:Eh.
  - apply orb_false_iff in H as [Ht H].
    destruct (table_records content) as [|r1 l1] eqn:Et.
    + apply orb_false_iff in H as [Hn H].
      destruct (numbered_list_records content) as [|r2 l2] eqn:En.
      * destruct (inline_records content) as [|r3 l3] eqn:Ei;
          [by intros ?%elem_of_nil|].
        rewrite <- Ei. intros (m & Hm & ->)%inline_record_code.
        by eapply finditer_code_bound; [apply simple_code_digits|..].
      * rewrite <- En. intros (m & Hm & ->)%numbered_record_code.
        by eapply finditer_code_bound; [apply numbered_code_digits|..].
    + rewrite <- Et. intros (m & Hm & ->)%table_record_code.
      by eapply finditer_code_bound; [apply table_code_digits|..].
  - rewrite <- Eh. intros (m & Hm & ->)%header_record_code.
    by eapply finditer_code_bound; [apply header_code_digits|..].
Qed.

Lemma parsed_str_total (content : text) :
  raises content = false →
  existsb (fun e => str_raises (code e)) (parse_error_codes_markdown content) = false.
Proof.
  intros Hr. destruct (existsb _ _) eqn:He; [|done].
  apply existsb_exists in He as (r & Hin & Hs).
  apply list_elem_of_In, elem_of_parse in Hin.
  by rewrite str_raises_false in Hs by by apply (raw_errors_code_bound content).
Qed.

(** X10. The parser returns no record exactly when none of the four
    strategies finds one, and never more records than the strategy it used.
    A call of [int] raises exactly when a match that the strategy chain
    reaches has a code of more than [int_max_str_digits] digits.  The
    extraction exits with 0 exactly when the input file exists, no call of
    [int] raises and some strategy finds a record; otherwise it exits
    with 1.  When no call of [int] raises, every code of the result is
    below 10 to the power [int_max_str_digits], so that [str] prints it. *)
Theorem parse_empty_iff_no_strategy_matches :
  (∀ content : text,
     parse_error_codes_markdown content = []
     ↔ header_strategy content = [] ∧ table_records content = []
       ∧ numbered_list_records content = [] ∧ inline_records content = [])
  ∧ (∀ content : text,
       (length (parse_error_codes_markdown content)
        <= length (raw_errors content))%nat)
  ∧ (∀ content : text,
       raises content = true
       ↔ ∃ m, int_max_str_digits < Z.of_nat (length (group m 1))
           ∧ (m ∈ finditer header_pattern content
              ∨ header_strategy content = []
                ∧ (m ∈ finditer table_pattern content
                   ∨ table_records content = []
                     ∧ (m ∈ finditer numbered_list_pattern content
                        ∨ numbered_list_records content = []
                          ∧ m ∈ finditer simple_pattern content))))
  ∧ (∀ raw_md : option text,
       parse_error_codes.main raw_md = 0
       ↔ ∃ content, raw_md = Some content
           ∧ raises content = false
           ∧ ¬ (header_strategy content = [] ∧ table_records content = []
                ∧ numbered_list_records content = []
                ∧ inline_records content = []))
  ∧ (∀ raw_md : option text,
       parse_error_codes.main raw_md = 0 ∨ parse_error_codes.main raw_md = 1)
  ∧ (∀ (content : text) (r : StataErrorCode),
       raises content = false → r ∈ parse_error_codes_markdown content →
       0 <= code r < 10 ^ int_max_str_digits ∧ str_raises (code r) = false).
Proof.
  assert (Hnil : ∀ content : text,
     parse_error_codes_markdown content = []
     ↔ header_strategy content = [] ∧ table_records content = []
       ∧ numbered_list_records content = [] ∧ inline_records content = []).
  { intros content. rewrite parse_nil, raw_errors_chain.
    unfold strategies. simpl.
    destruct (header_strategy content); [|by split; [|intros [? _]]].
    destruct (table_records content); [|by split; [|intros (_ & ? & _)]].
    destruct (numbered_list_records content);
      [|by split; [|intros (_ & _ & ? & _)]].
    destruct (inline_records content); [done|by split; [|intros (_ & _ & _ & ?)]]. }
  split; [exact Hnil|]. split; [|split; [|split; [|split]]].
  - intros content. unfold parse_error_codes_markdown.
    rewrite remove_duplicates_keep_first.
    etrans; [apply sublist_length, keep_first_sublist|].
    by rewrite sort_by_key_perm.
  - intros content. rewrite raises_chain.
    assert (Hlong : ∀ m, int_max_str_digits < Z.of_nat (length (group m 1))
                         ↔ int_raises (group m 1) = true)
      by (intros m; unfold int_raises; by rewrite Z.ltb_lt).
    setoid_rewrite Hlong. split.
    + intros [H|H]%orb_true_iff.
      { apply code_raises_true in H as (m & Hm & Hr). eauto. }
      destruct (header_strategy content) eqn:Eh; [|done].
      apply orb_true_iff in H as [H|H].
      { apply code_raises_true in H as (m & Hm & Hr). eauto 6. }
      destruct (table_records content) eqn:Et; [|done].
      apply orb_true_iff in H as [H|H].
      { apply code_raises_true in H as (m & Hm & Hr). eauto 8. }
      destruct (numbered_list_records content) eqn:En; [|done].
      apply code_raises_true in H as (m & Hm & Hr). eauto 10.
    + intros (m & Hr & [Hm|(-> & [Hm|(-> & [Hm|(-> & Hm)])])]).
      * apply orb_true_iff. left. apply code_raises_true. eauto.
      * apply orb_true_iff. right. apply orb_true_iff. left.
        apply code_raises_true. eauto.
      * apply orb_true_iff. right. apply orb_true_iff. right.
        apply orb_true_iff. left. apply code_raises_true. eauto.
      * apply orb_true_iff. right. apply orb_true_iff. right.
        apply orb_true_iff. right. apply code_raises_true. eauto.
  - intros [content|]; unfold parse_error_codes.main.
    + destruct (raises content) eqn:Hr.
      { split; [done|]. intros (c & [= <-] & Hr' & _). congruence. }
      pose proof (parsed_str_total content Hr) as Hstr.
      destruct (parse_error_codes_markdown content) eqn:Hp.
      * split; [done|]. intros (c & [= <-] & _ & Hne). exfalso. by apply Hne, Hnil.
      * rewrite Hstr. split; [|done]. intros _. exists content.
        split; [done|]. split; [done|]. intros Hall%Hnil. congruence.
    + split; [done|]. by intros (c & ? & _).
  - intros [content|]; unfold parse_error_codes.main; [|by right].
    destruct (raises content); [by right|].
    destruct (parse_error_codes_markdown content); [by right|].
    destruct (existsb _ _); [by right|by left].
  - intros content r Hr Hin%elem_of_parse.
    pose proof (raw_errors_code_bound content r Hr Hin) as Hb.
    split; [done|by apply str_raises_false].
Qed.

Lemma parse_empty_witness :
  parse_error_codes_markdown (str "no codes here") = []
  ∧ parse_error_codes.main (Some Inputs.numbered_only) = 0
  ∧ parse_error_codes.main (Some Inputs.long_code) = 1.
Proof.
  destruct parse_empty_iff_no_strategy_matches as (Hnil & _ & _ & Hmain & _).
  split; [|split].
  - apply Hnil. repeat split; by vm_compute.
  - apply Hmain. exists Inputs.numbered_only. split; [done|].
    split; [by vm_compute|]. intros (_ & _ & Hn & _). by vm_compute in Hn.
  - by vm_compute.
Defined.

(** ** The split of the inline strategy *)

Lemma split1_first_clean (c : ascii) (s : text) :
  contains c (item (split1 c s) 0) = false.
Proof.
  unfold item, contains. induction s as [|x s IH]; [done|].
  simpl. destruct (is_char c x) eqn:Hx; [done|].
  destruct (split1 c s) as [|p ps]; simpl in *; [by rewrite Hx|].
  by rewrite Hx, IH.
Qed.

Lemma split1_join (c : ascii) (s : text) :
  contains c s = true →
  ∃ after, split1 c s = [item (split1 c s) 0; after]
           ∧ s = item (split1 c s) 0 ++ c :: after.
Proof.
  unfold item, contains. induction s as [|x s IH]; [done|].
  simpl. destruct (is_char c x) eqn:Hx; simpl.
  - intros _. exists s. apply Ascii.eqb_eq in Hx. by subst x.
  - intros (after & Hs & Heq)%IH. exists after.
    rewrite Hs in *. simpl in *. split; [done|]. by f_equal.
Qed.

Lemma contains_sublist (c : ascii) (s t : text) :
  s `sublist_of` t → contains c t = false → contains c s = false.
Proof.
  unfold contains. intros Hsub Ht.
  destruct (existsb (is_char c) s) eqn:Hs; [|done].
  apply existsb_exists in Hs as (x & Hx & Hc).
  assert (existsb (is_char c) t = true); [|congruence].
  apply existsb_exists. exists x. split; [|done].
  apply list_elem_of_In. eapply elem_of_sublist; [|exact Hsub].
  by apply list_elem_of_In.
Qed.

Lemma strip_sublist (s : text) : strip s `sublist_of` s.
Proof.
  unfold strip.
  destruct (lstrip_by_split is_space s) as (pre & Heq & _).
  destruct (rstrip_by_split is_space (lstrip_by is_space s)) as (suf & Heq' & _).
  rewrite Heq at 2. apply sublist_inserts_l.
  rewrite Heq' at 2. by apply sublist_inserts_r.
Qed.

(** X11. The inline strategy splits on the first period when the text has one,
    whatever hyphens it has, and on the first hyphen otherwise: the name
    never holds the character the split was made on, and without either
    character the whole text is the name and the description is empty. *)
Theorem inline_split_priority (rest : text) :
  (contains "." rest = true →
     contains "." (inline_split rest).1 = false
     ∧ ∃ before after, rest = before ++ "."%char :: after
         ∧ contains "." before = false
         ∧ inline_split rest = (strip before, strip after))
  ∧ (contains "." rest = false → contains "-" rest = true →
       contains "-" (inline_split rest).1 = false
       ∧ ∃ before after, rest = before ++ "-"%char :: after
           ∧ contains "-" before = false
           ∧ inline_split rest = (strip before, strip after))
  ∧ (contains "." rest = false → contains "-" rest = false →
       inline_split rest = (rest, [])).
Proof.
  unfold inline_split. split; [|split].
  - intros Hdot. rewrite Hdot.
    destruct (split1_join "." rest Hdot) as (after & Hs & Heq).
    pose proof (split1_first_clean "." rest) as Hclean.
    rewrite Hs in *. unfold item in *. simpl in *. split.
    + eapply contains_sublist; [apply strip_sublist|done].
    + by eexists _, _.
  - intros Hdot Hhy. rewrite Hdot, Hhy.
    destruct (split1_join "-" rest Hhy) as (after & Hs & Heq).
    pose proof (split1_first_clean "-" rest) as Hclean.
    rewrite Hs in *. unfold item in *. simpl in *. split.
    + eapply contains_sublist; [apply strip_sublist|done].
    + by eexists _, _.
  - by intros -> ->.
Qed.

Lemma inline_split_priority_witness :
  contains "." (inline_split (str "op-sys error. See r(1) - again")).1 = false
  ∧ contains "-" (inline_split (str "file not found - check the path")).1 = false
  ∧ inline_split (str "no such variable") = (str "no such variable", []).
Proof.
  split; [|split].
  - by apply inline_split_priority; vm_compute.
  - by apply inline_split_priority; vm_compute.
  - by apply inline_split_priority; vm_compute.
Defined.

(** * The artifacts read back *)

(** ** [int(str(n))] *)














(** ** The JSON and the CSV artifact of one run *)

Lemma mapM_fmap_fmap {A B C} (f : B → option C) (g : A → B) (h : A → C)
    (l : list A) :
  (∀ x, f (g x) = Some (h x)) → mapM f (g <$> l) = Some (h <$> l).
Proof.
  intros Hf. apply mapM_Some_2.
  induction l as [|x l IH]; constructor; [apply Hf|done].
Qed.

Lemma read_entry_export (err : StataErrorCode) :
  read_entry (clean_dict (asdict err)) = Some (entry_of err).
Proof. by destruct err as [c n d [cat|] [refs|] v]. Qed.



Lemma read_json_export (errors : list StataErrorCode) :
  read_json (export_to_json errors) = Some (entry_of <$> errors).
Proof. unfold read_json, export_to_json. apply mapM_fmap_fmap, read_entry_export. Qed.



Lemma entry_of_undescribed (r : StataErrorCode) :
  trimmed (description r) →
  undescribed (entry_of r) = false ↔ description r ≠ [].
Proof.
  intros Ht. unfold undescribed, entry_of. simpl.
  destruct (description r) as [|c d] eqn:Hd; [done|]. split; [done|]. intros _.
  destruct (blank (c :: d)) eqn:Hb; [|done].
  apply strip_nil in Hb. by rewrite strip_id in Hb.
Qed.



Lemma parsed_description_trimmed (content : text) (r : StataErrorCode) :
  r ∈ parse_error_codes_markdown content → trimmed (description r).
Proof.
  intros Hr. apply elem_of_parse, raw_errors_constructed in Hr.
  destruct Hr as (c & n & d & refs & ->). apply normalize_trimmed.
Qed.

Lemma header_strategy_description (content : text) (r : StataErrorCode) :
  r ∈ header_strategy content → description r ≠ [].
Proof.
  unfold header_strategy, header_records.
  intros (i & [[c n] p] & -> & _)%elem_of_lookup_imap. simpl.
  match goal with |- context [header_description ?a ?b ?e] =>
    destruct (header_description_head a b e) as [->|(d & Hd & Hsp)] end.
  - by rewrite normalize_sentinel.
  - destruct (header_description _ _ _) as [|d' t] eqn:Heq; [done|].
    by apply (normalize_nonempty _ d).
Qed.



(** X14. When the header strategy finds records, the completeness check on the
    artifacts of the run finds nothing: the sentinel keeps every
    description non-empty. *)
Theorem header_extraction_is_complete (content : text) :
  header_strategy content ≠ [] →
  ∃ json_data,
    read_json (export_to_json (parse_error_codes_markdown content)) = Some json_data
    ∧ check_descriptions json_data = [].
Proof.
  intros Hne.
  eexists. split; [apply read_json_export|].
  apply check_descriptions_nil. intros e He.
  apply list_elem_of_fmap in He as (r & -> & Hr).
  apply entry_of_undescribed; [by apply (parsed_description_trimmed content)|].
  apply (header_strategy_description content).
  apply elem_of_parse in Hr. rewrite raw_errors_chain in Hr.
  unfold strategies in Hr. simpl in Hr.
  by destruct (header_strategy content).
Qed.

Lemma header_extraction_witness :
  header_strategy Inputs.two_headers ≠ []
  ∧ ∃ json_data,
      read_json (export_to_json (parse_error_codes_markdown Inputs.two_headers))
      = Some json_data
      ∧ check_descriptions json_data = [].
Proof.
  assert (H : header_strategy Inputs.two_headers ≠ []) by by vm_compute.
  split; [exact H|]. exact (header_extraction_is_complete Inputs.two_headers H).
Defined.

(** ** The JSON entries *)

(** X15. An exported entry never holds a null: it always has the code, the
    name, the description and the version of its record, and it has the
    category and the references exactly when the record has them. *)
Theorem export_to_json_entries (r : StataErrorCode) :
  (∀ kv, kv ∈ clean_dict (asdict r) → kv.2 ≠ JNull)
  ∧ get_key "code" (clean_dict (asdict r)) = Some (JInt (code r))
  ∧ get_key "name" (clean_dict (asdict r)) = Some (JStr (name r))
  ∧ get_key "description" (clean_dict (asdict r)) = Some (JStr (description r))
  ∧ get_key "stata_version" (clean_dict (asdict r)) = Some (JStr (stata_version r))
  ∧ get_key "category" (clean_dict (asdict r)) = JStr <$> category r
  ∧ get_key "references" (clean_dict (asdict r)) = JList <$> references r
  ∧ clean_dict (asdict r) `sublist_of` asdict r.
Proof.
  split.
  - intros kv Hin Hnull. unfold clean_dict in Hin.
    apply list_elem_of_In, filter_In in Hin as [_ Hin]. by rewrite Hnull in Hin.
  - destruct r as [c n d [cat|] [refs|] v]; repeat split; try done;
      unfold clean_dict, asdict; simpl;
      repeat first [apply sublist_skip | apply sublist_cons | apply sublist_nil].
Qed.

Lemma export_to_json_entries_witness :
  ∃ r, parse_error_codes_markdown Inputs.two_headers !! 1%nat = Some r
       ∧ get_key "code" (clean_dict (asdict r)) = Some (JInt 199)
       ∧ get_key "references" (clean_dict (asdict r)) = None
       ∧ ∀ kv, kv ∈ clean_dict (asdict r) → kv.2 ≠ JNull.
Proof.
  eexists. split; [by vm_compute|].
  match goal with |- get_key _ (clean_dict (asdict ?r)) = _ ∧ _ =>
    destruct (export_to_json_entries r) as (Hnull & Hcode & _ & _ & _ & _ & Href & _)
  end.
  split; [exact Hcode|]. split; [exact Href|exact Hnull].
Defined.

(** ** The generated table *)

Lemma replace_char_app (c : ascii) (b s t : text) :
  replace_char c b (s ++ t) = replace_char c b s ++ replace_char c b t.
Proof. unfold replace_char. apply flat_map_app. Qed.

Lemma rust_escape_cons (c : ascii) (s : text) :
  rust_escape (c :: s)
  = (if is_char backslash c then [backslash; backslash]
     else if is_char dquote c then [backslash; dquote] else [c])
    ++ rust_escape s.
Proof.
  unfold rust_escape.
  change (replace_char backslash [backslash; backslash] (c :: s))
    with ((if is_char backslash c then [backslash; backslash] else [c])
          ++ replace_char backslash [backslash; backslash] s).
  rewrite replace_char_app. f_equal.
  destruct (is_char backslash c) eqn:Hb; [done|].
  unfold replace_char. simpl. rewrite app_nil_r. done.
Qed.

Lemma assign_category_nonempty (n : Z) : _assign_category n ≠ [].
Proof.
  unfold _assign_category.
  repeat match goal with |- context [if ?b then _ else _] => destruct b end;
    done.
Qed.

(** X16. The escaping of the generated table loses nothing: read as a string
    literal reads it, the escaped text is the original, so different texts
    are written differently.  For a record of the parser the category
    written is the classifier's label, never the "General" fallback. *)
Theorem rust_escape_reversible :
  (∀ s : text, rust_unescape (rust_escape s) = s)
  ∧ (∀ s t : text, rust_escape s = rust_escape t → s = t)
  ∧ (∀ content r, r ∈ parse_error_codes_markdown content →
       rust_entry r
       = (code r, rust_escape (name r), _assign_category (code r),
          rust_escape (description r))).
Proof.
  assert (Hrt : ∀ s : text, rust_unescape (rust_escape s) = s).
  { unfold rust_unescape. induction s as [|c s IH]; [done|].
    rewrite rust_escape_cons.
    assert (Hbb : is_char backslash backslash = true) by done.
    destruct (is_char backslash c) eqn:Hb.
    - apply Ascii.eqb_eq in Hb. subst c.
      cbn [app rust_unescape_from]. by rewrite Hbb, IH.
    - destruct (is_char dquote c) eqn:Hq.
      + apply Ascii.eqb_eq in Hq. subst c.
        cbn [app rust_unescape_from]. by rewrite Hbb, IH.
      + cbn [app rust_unescape_from]. by rewrite Hb, IH. }
  split; [exact Hrt|]. split.
  - intros s t Heq. by rewrite <- (Hrt s), <- (Hrt t), Heq.
  - intros content r Hr. apply elem_of_parse, raw_errors_constructed in Hr.
    destruct Hr as (c & n & d & refs & ->).
    unfold rust_entry, new_StataErrorCode, __post_init__.
    cbn [category code name description].
    destruct (_assign_category c) eqn:E; [|done].
    by apply assign_category_nonempty in E.
Qed.

Lemma rust_escape_witness :
  rust_escape [dquote; backslash] = [backslash; dquote; backslash; backslash]
  ∧ rust_unescape (rust_escape [dquote; backslash]) = [dquote; backslash]
  ∧ ∃ r, parse_error_codes_markdown Inputs.two_headers !! 0%nat = Some r
         ∧ (rust_entry r).1.2 = str "General".
Proof.
  destruct rust_escape_reversible as (Hrt & _ & Hentry).
  split; [by vm_compute|]. split; [apply Hrt|].
  eexists. split; [by vm_compute|].
  rewrite (Hentry Inputs.two_headers); [by vm_compute|].
  apply list_elem_of_lookup. exists 0%nat. by vm_compute.
Defined.

(** ** The spans of the matches and the slices of the strategies *)

Lemma spans_ordered_weaken (lo lo' hi : nat) (ms : list rmatch) :
  (lo <= lo')%nat → spans_ordered lo' hi ms → spans_ordered lo hi ms.
Proof. destruct ms as [|m ms]; [done|]. simpl. intros ? (? & ? & ? & ?). repeat split; [lia|done..]. Qed.

Lemma scan_spans (r : regex) (s : text) :
  ∀ skip prev pos, (skip <= length s)%nat →
    spans_ordered (pos + skip) (pos + length s) (scan r skip prev pos s).
Proof.
  induction s as [|c s IH]; intros skip prev pos Hskip.
  - simpl in Hskip. replace skip with 0%nat by lia. simpl.
    destruct (match_at r prev []) as [[n g]|]; [|done]. simpl. lia.
  - cbn [scan length]. destruct skip as [|j].
    + destruct (match_at r prev (c :: s)) as [[n g]|] eqn:Hm.
      * apply match_at_sound in Hm as (w & rest & Heq & -> & _).
        apply (f_equal length) in Heq. rewrite length_app in Heq. simpl in Heq.
        cbn [spans_ordered m_start m_end]. repeat split; [lia..|].
        apply (spans_ordered_weaken _ (S pos + pred (length w))); [lia|].
        replace (pos + S (length s))%nat with (S pos + length s)%nat by lia.
        apply IH. lia.
      * apply (spans_ordered_weaken _ (S pos + 0)); [lia|].
        replace (pos + S (length s))%nat with (S pos + length s)%nat by lia.
        apply IH. lia.
    + replace (pos + S j)%nat with (S pos + j)%nat by lia.
      replace (pos + S (length s))%nat with (S pos + length s)%nat by lia.
      apply IH. simpl in Hskip. lia.
Qed.

Lemma spans_ordered_lookup (ms : list rmatch) :
  ∀ lo hi i m, spans_ordered lo hi ms → ms !! i = Some m →
    (lo <= m_start m)%nat ∧ (m_start m <= m_end m)%nat ∧ (m_end m <= hi)%nat
    ∧ ∀ m', ms !! S i = Some m' → (m_end m <= m_start m')%nat.
Proof.
  induction ms as [|m0 ms IH]; intros lo hi i m; [done|].
  simpl. intros (H1 & H2 & H3 & Hrest). destruct i as [|i]; simpl.
  - intros [= <-]. repeat split; [done..|].
    intros m' Hm'. destruct ms as [|m1 ms]; [done|].
    simpl in Hm'. injection Hm' as <-. by destruct Hrest.
  - intros Hm. destruct (IH _ _ _ _ Hrest Hm) as (? & ? & ? & ?).
    repeat split; [lia|done..].
Qed.

(** X17. The matches of a scan lie inside the text, in order and without
    overlap; so the text a strategy slices for an entry, from the end of its
    match to the next entry (or to the end of the text), never has its
    bounds reversed or outside the text. *)
Theorem strategy_slices_in_bounds :
  (∀ (r : regex) (s : text), spans_ordered 0 (length s) (finditer r s))
  ∧ (∀ (content : text) i m,
       finditer numbered_list_pattern content !! i = Some m →
       (m_end m
        <= match finditer numbered_list_pattern content !! (i + 1)%nat with
           | Some next => m_start next
           | None => length content
           end <= length content)%nat)
  ∧ (∀ (content : text) i c n start_pos,
       header_sections content !! i = Some (c, n, start_pos) →
       (start_pos
        <= match header_sections content !! (i + 1)%nat with
           | Some (_, _, next_start) => next_start
           | None => length content
           end <= length content)%nat).
Proof.
  assert (Hspans : ∀ (r : regex) (s : text),
            spans_ordered 0 (length s) (finditer r s)).
  { intros r s. apply (scan_spans r s 0 None 0). lia. }
  split; [exact Hspans|]. split.
  - intros content i m Hm.
    destruct (spans_ordered_lookup _ _ _ _ _ (Hspans _ content) Hm)
      as (_ & _ & Hend & Hnext).
    rewrite Nat.add_1_r.
    destruct (finditer numbered_list_pattern content !! S i) as [m'|] eqn:Hm';
      [|lia].
    destruct (spans_ordered_lookup _ _ _ _ _ (Hspans _ content) Hm')
      as (_ & ? & ? & _).
    specialize (Hnext m' eq_refl). lia.
  - intros content i c n p. unfold header_sections.
    rewrite !list_lookup_fmap, Nat.add_1_r.
    destruct (finditer header_pattern content !! i) as [m|] eqn:Hm; [|done].
    simpl. intros [= _ _ <-].
    destruct (spans_ordered_lookup _ _ _ _ _ (Hspans _ content) Hm)
      as (_ & _ & Hend & Hnext).
    destruct (finditer header_pattern content !! S i) as [m'|] eqn:Hm';
      simpl; [|lia].
    destruct (spans_ordered_lookup _ _ _ _ _ (Hspans _ content) Hm')
      as (_ & ? & ? & _).
    specialize (Hnext m' eq_refl). lia.
Qed.

Lemma strategy_slices_witness :
  ∃ m, finditer numbered_list_pattern Inputs.numbered_only !! 0%nat = Some m
       ∧ (m_end m <= 49 <= length Inputs.numbered_only)%nat.
Proof.
  destruct strategy_slices_in_bounds as (_ & Hnum & _).
  eexists. split; [by vm_compute|].
  match goal with |- (m_end ?m <= _ <= _)%nat =>
    pose proof (Hnum Inputs.numbered_only 0%nat m) as H end.
  vm_compute in H. vm_compute. apply H. reflexivity.
Defined.

(** ** Table cells *)

Lemma contains_false (x : ascii) (s : text) : contains x s = false ↔ x ∉ s.
Proof.
  unfold contains. split.
  - intros Hc Hin.
    assert (existsb (is_char x) s = true); [|congruence].
    apply existsb_exists. exists x. split; [by apply list_elem_of_In|].
    apply Ascii.eqb_refl.
  - intros Hn. destruct (existsb (is_char x) s) eqn:He; [|done].
    apply existsb_exists in He as (y & Hy & ->%Ascii.eqb_eq).
    by apply list_elem_of_In in Hy.
Qed.

Lemma collapse_elem (b : bool) (s : text) (c : ascii) :
  c ∈ collapse_from b s → c ∈ s ∨ c = " "%char.
Proof.
  revert b. induction s as [|x s IH]; intros b; simpl; [by left|].
  destruct (is_space x), b.
  - intros [?|?]%IH; [left; by right|by right].
  - intros [->|[?|?]%IH]%elem_of_cons; [by right|left; by right|by right].
  - intros [->|[?|?]%IH]%elem_of_cons; [left; left|left; by right|by right].
  - intros [->|[?|?]%IH]%elem_of_cons; [left; left|left; by right|by right].
Qed.

Lemma normalize_keeps_out (x : ascii) (s : text) :
  x ≠ " "%char → contains x s = false → contains x (normalize s) = false.
Proof.
  rewrite !contains_false. intros Hx Hs Hin. rewrite normalize_collapse in Hin.
  pose proof (elem_of_sublist _ _ _ Hin (strip_sublist _)) as Hin'.
  apply collapse_elem in Hin' as [?|?]; done.
Qed.

Lemma table_cells prev (w rest : text) (g : groups) :
  matches table_pattern prev w rest ∅ g →
  ∃ d2 d3, g !! 2%nat = Some d2 ∧ g !! 3%nat = Some d3
           ∧ forallb not_bar d2 = true ∧ forallb not_bar d3 = true.
Proof.
  unfold table_pattern. cbn [lit list_ascii_of_string].
  intros Hm. inv_regex.
  eexists _, _. split; [|split; [|split]].
  - rewrite lookup_insert_ne by done. by rewrite lookup_insert_eq.
  - by rewrite lookup_insert_eq.
  - assumption.
  - assumption.
Qed.

Lemma not_bar_contains (d : text) : forallb not_bar d = true → contains "|" d = false.
Proof.
  unfold contains, not_bar, neg. induction d as [|c d IH]; [done|].
  simpl. intros [Hc Hd]%andb_true_iff. apply negb_true_iff in Hc.
  by rewrite Hc, IH.
Qed.

(** X18. A record of the table strategy never has the column delimiter in its
    name or in its description. *)
Theorem table_cells_without_delimiter (content : text) (r : StataErrorCode) :
  r ∈ table_records content →
  contains "|" (name r) = false ∧ contains "|" (description r) = false.
Proof.
  unfold table_records. intros (m & -> & Hm)%list_elem_of_fmap.
  apply scan_sound in Hm as (prev & w & rest & Hm).
  apply table_cells in Hm as (d2 & d3 & H2 & H3 & Hd2 & Hd3).
  unfold group. rewrite H2, H3. simpl.
  split; apply normalize_keeps_out; try done;
    (eapply contains_sublist; [apply strip_sublist|by apply not_bar_contains]).
Qed.

Lemma table_cells_witness :
  ∃ r, table_records (str "| 601 | file not found | check the path |")
         !! 0%nat = Some r
       ∧ contains "|" (name r) = false.
Proof.
  eexists. split; [by vm_compute|].
  match goal with |- contains _ (name ?r) = _ =>
    destruct (table_cells_without_delimiter
                (str "| 601 | file not found | check the path |") r)
      as [H _]; [|exact H] end.
  apply list_elem_of_lookup. exists 0%nat. by vm_compute.
Defined.

(** * The description of a record, strategy by strategy *)

Lemma blank_collapse (b : bool) (s : text) : blank (collapse_from b s) = blank s.
Proof.
  unfold blank. revert b. induction s as [|c s IH]; intros b; simpl; [done|].
  destruct (is_space c) eqn:Hc.
  - destruct b; simpl; by rewrite IH.
  - simpl. by rewrite Hc.
Qed.

Lemma blank_strip (s : text) : blank (strip s) = blank s.
Proof.
  destruct (blank s) eqn:Hb.
  - apply strip_nil in Hb. by rewrite Hb.
  - destruct (blank (strip s)) eqn:Hs; [|done].
    apply strip_nil in Hs. rewrite strip_id in Hs by apply strip_trimmed.
    apply strip_nil in Hs. congruence.
Qed.

Lemma normalize_nil (s : text) : normalize s = [] ↔ blank s = true.
Proof.
  rewrite normalize_collapse, strip_nil. unfold collapse_ws.
  by rewrite blank_collapse.
Qed.

Lemma table_record_description (content : text) (r : StataErrorCode) :
  r ∈ table_records content →
  ∃ m, m ∈ finditer table_pattern content
       ∧ description r = normalize (strip (group m 3))
       ∧ (description r = [] ↔ blank (group m 3) = true).
Proof.
  unfold table_records. intros (m & -> & Hm)%list_elem_of_fmap.
  exists m. split; [done|]. split; [done|]. simpl.
  by rewrite normalize_nil, blank_strip.
Qed.

Lemma numbered_record_description (content : text) (r : StataErrorCode) :
  r ∈ numbered_list_records content →
  ∃ m full_description,
    m ∈ finditer numbered_list_pattern content
    ∧ (full_description = strip (group m 2)
       ∨ ∃ continuation, continuation ≠ []
           ∧ full_description = strip (group m 2) ++ str " " ++ continuation)
    ∧ description r = normalize full_description
    ∧ (description r = [] ↔ blank full_description = true).
Proof.
  unfold numbered_list_records.
  intros (i & m & -> & Hi)%elem_of_lookup_imap.
  apply list_elem_of_lookup_2 in Hi. cbv beta zeta.
  match goal with |- context [new_StataErrorCode _ _ ?full _] => exists m, full end.
  split; [done|]. split; [|split; [reflexivity|apply normalize_nil]].
  unfold full_description_of.
  destruct (strip (slice _ _ content)) as [|c continuation]; [by left|].
  destruct (re_match _ _); [by left|]. right. by exists (c :: continuation).
Qed.

Lemma inline_record_description (content : text) (r : StataErrorCode) :
  r ∈ inline_records content →
  ∃ m, m ∈ finditer simple_pattern content
       ∧ ((inline_split (strip (group m 2))).2 = [] → description r = name r)
       ∧ ((inline_split (strip (group m 2))).2 ≠ [] →
          description r = normalize (inline_split (strip (group m 2))).2).
Proof.
  unfold inline_records. intros (m & -> & Hm)%list_elem_of_fmap.
  exists m. split; [done|]. unfold inline_record.
  destruct (inline_split _) as [n [|c d]]; simpl; by split.
Qed.

(** C1 (as amended). Every record of the header strategy has a non-empty
    description, and the description is the sentinel "No description
    available" whenever the scope of the header holds no text.  The other
    three strategies substitute nothing.  The description of a tabular
    record is the normalised third cell, and that of a numbered-list record
    is the normalised first line, with its continuation when there is one:
    both are empty exactly when that text is blank.  The description of an
    inline record is its name when nothing follows the split point, and the
    normalised text after the split point otherwise.  Each of the three
    strategies gives the empty description on some text. *)
Theorem description_sentinel_only_for_headers :
  (∀ content r, r ∈ header_strategy content → description r ≠ [])
  ∧ (∀ content sections i c n start_pos,
       sections !! i = Some (c, n, start_pos) →
       header_description content start_pos
         (match sections !! (i + 1)%nat with
          | Some (_, _, next_start) => next_start
          | None => length content
          end) = [] →
       description <$> header_records content sections !! i = Some sentinel)
  ∧ (∀ content r, r ∈ table_records content →
       ∃ m, m ∈ finditer table_pattern content
            ∧ description r = normalize (strip (group m 3))
            ∧ (description r = [] ↔ blank (group m 3) = true))
  ∧ (∀ content r, r ∈ numbered_list_records content →
       ∃ m full_description,
         m ∈ finditer numbered_list_pattern content
         ∧ (full_description = strip (group m 2)
            ∨ ∃ continuation, continuation ≠ []
                ∧ full_description = strip (group m 2) ++ str " " ++ continuation)
         ∧ description r = normalize full_description
         ∧ (description r = [] ↔ blank full_description = true))
  ∧ (∀ content r, r ∈ inline_records content →
       ∃ m, m ∈ finditer simple_pattern content
            ∧ ((inline_split (strip (group m 2))).2 = [] → description r = name r)
            ∧ ((inline_split (strip (group m 2))).2 ≠ [] →
               description r = normalize (inline_split (strip (group m 2))).2))
  ∧ (∃ r, r ∈ table_records (str "|1|a| |") ∧ description r = [])
  ∧ (∃ r, r ∈ numbered_list_records (str "1.  ") ∧ description r = [])
  ∧ (∃ r, r ∈ inline_records (str "r(1) .") ∧ description r = []).
Proof.
  split; [exact header_strategy_description|].
  split.
  { intros content sections i c n p Hi Hnil. unfold header_records.
    rewrite list_lookup_imap, Hi. simpl. by rewrite Hnil, normalize_sentinel. }
  split; [exact table_record_description|].
  split; [exact numbered_record_description|].
  split; [exact inline_record_description|].
  split; [|split]; (eexists; split; [vm_compute; constructor|done]).
Qed.

Lemma description_sentinel_witness :
  (∀ r, r ∈ header_strategy Inputs.two_headers → description r ≠ [])
  ∧ description <$> header_records (str "## r(7) x")
                      (header_sections (str "## r(7) x")) !! 0%nat
    = Some sentinel.
Proof.
  destruct description_sentinel_only_for_headers as (Hne & Hs & _).
  split; [apply Hne|].
  by apply (Hs (str "## r(7) x") _ 0%nat 7 (str "x") 9%nat); vm_compute.
Defined.
